(** * quick2uv: the context budgeting and extraction functions

    A shallow embedding of [smartTruncateReadme], [smartTruncatePython] and
    [truncateFilesByBudget], the three functions of the pyproject generator
    that cut a readme, the manifests and the Python sources down to their
    character budgets, together with the JavaScript string, array and
    regular-expression primitives they use.

    - A JavaScript string is the list of its UTF-16 code units ([list N]);
      [length] is the number of code units, as [String.prototype.length].
    - A JavaScript number holding an integer is a [Z]; the budgets are
      integers, and every number computed from them stays one, except the
      two halves [remaining / 2] and [-remaining / 2], which [slice] truncates.
    - The object returned by [truncateFilesByBudget] is a [gmap] from file
      name to excerpt; its argument is given by its [Object.entries] list.
      File names are ordinary own property names (the callers use fixed
      manifest names and names ending in [.py]). *)

From Stdlib Require Import ZArith NArith Lia Ascii String.
From stdpp Require Import base strings list gmap fin_maps sorting.

Local Open Scope Z_scope.

(** ** Budgets *)

Record token_budget :=
  { total : Z; readme : Z; configFiles : Z; pythonFiles : Z }.

Definition TOKEN_BUDGET : token_budget :=
  {| total := 6000; readme := 2500; configFiles := 2000; pythonFiles := 1500 |}.

(** ** Strings *)

(** Code units of an ASCII literal. *)
Definition lit (s : string) : list N :=
  (λ a, N_of_ascii a) <$> list_ascii_of_string s.

Definition js_length {A} (s : list A) : Z := Z.of_nat (length s).

(** [!content] for a string: only the empty string is falsy. *)
Definition falsy (s : list N) : bool :=
  match s with [] => true | _ => false end.

(** Relative index resolution shared by [String.prototype.slice] and
    [Array.prototype.slice]: a negative index counts from the end, and the
    result is clamped to [0, len]. *)
Definition clamp_index (len i : Z) : Z :=
  if i <? 0 then Z.max (len + i) 0 else Z.min i len.

(** [s.slice(start, end)] for integral [start] and [end]. *)
Definition slice {A} (s : list A) (start end_ : Z) : list A :=
  let len := js_length s in
  let from := clamp_index len start in
  let to := clamp_index len end_ in
  take (Z.to_nat (to - from)) (drop (Z.to_nat from) s).

(** [s.slice(start)]: the end defaults to the length. *)
Definition slice_from {A} (s : list A) (start : Z) : list A :=
  slice s start (js_length s).

Definition NL : N := 10%N.

(** [s.split("\n")]. *)
Fixpoint split_lines (s : list N) : list (list N) :=
  match s with
  | [] => [[]]
  | c :: s' =>
      if (c =? NL)%N then [] :: split_lines s'
      else match split_lines s' with
           | l :: ls => (c :: l) :: ls
           | [] => [[c]]
           end
  end.

(** [parts.join(sep)]. *)
Fixpoint join (sep : list N) (parts : list (list N)) : list N :=
  match parts with
  | [] => []
  | p :: ps =>
      match ps with
      | [] => p
      | _ :: _ => p ++ sep ++ join sep ps
      end
  end.

Fixpoint starts_with (s p : list N) {struct p} : bool :=
  match p, s with
  | [], _ => true
  | _ :: _, [] => false
  | a :: p', b :: s' => (a =? b)%N && starts_with s' p'
  end.

(** [s.includes(sub)]. *)
Fixpoint includes (s sub : list N) : bool :=
  starts_with s sub ||
  match s with
  | [] => false
  | _ :: s' => includes s' sub
  end.

(** The WhiteSpace and LineTerminator code units: the members of [\s], and
    what [trim] strips. *)
Definition is_space (c : N) : bool :=
  ((9 <=? c) && (c <=? 13) || (c =? 32) || (c =? 160) || (c =? 5760)
   || (8192 <=? c) && (c <=? 8202) || (c =? 8232) || (c =? 8233)
   || (c =? 8239) || (c =? 8287) || (c =? 12288) || (c =? 65279))%N.

(** [line.trim() === ""]. *)
Definition trim_is_empty (line : list N) : bool := forallb is_space line.

(** ** Regular expressions

    A backtracking matcher in continuation-passing style, following the
    priority order of the ECMAScript pattern semantics: alternatives left to
    right, a greedy quantifier tries one more repetition first, a lazy one
    tries the rest of the pattern first.  The continuation receives what is
    left of the input and returns what is left after the whole match.
    Quantifiers occur in the patterns of this program only on single
    characters and character classes, which is all [Rep] covers; capture
    groups are never read, so groups are plain sequencing.  No pattern looks
    behind the current position, so a match attempt is a function of the
    rest of the input alone. *)

Inductive regex :=
| Lit (c : N)
| Cls (p : N → bool)
| Rep (greedy : bool) (p : N → bool) (lo : nat) (hi : option nat)
| Seq (r1 r2 : regex)
| Alt (r1 r2 : regex)
| Ahead (r : regex)
| Eoi.

(** A pattern with its [i] flag. *)
Record pattern := Pattern { pat : regex; ignoreCase : bool }.

(** Canonicalize of a non-unicode pattern under the [i] flag, restricted to
    what the patterns here contain (ASCII characters and CJK ideographs): a
    code unit outside ASCII never folds onto an ASCII one, and no other code
    unit folds onto an ideograph, so folding a-z onto A-Z is exact. *)
Definition ascii_upper (c : N) : N :=
  if ((97 <=? c) && (c <=? 122))%N then (c - 32)%N else c.

Definition char_eq (icase : bool) (a b : N) : bool :=
  if icase then (ascii_upper a =? ascii_upper b)%N else (a =? b)%N.

Definition or_else {A} (x y : option A) : option A :=
  match x with Some _ => x | None => y end.

Definition has_room (hi : option nat) : bool :=
  match hi with Some O => false | _ => true end.

Section Matcher.
Variable icase : bool.

Fixpoint rep_greedy (p : N → bool) (lo : nat) (hi : option nat)
    (s : list N) (k : list N → option (list N)) : option (list N) :=
  let stop := match lo with O => k s | S _ => None end in
  match s with
  | c :: s' =>
      if has_room hi && p c
      then or_else (rep_greedy p (pred lo) (pred <$> hi) s' k) stop
      else stop
  | [] => stop
  end.

Fixpoint rep_lazy (p : N → bool) (lo : nat) (hi : option nat)
    (s : list N) (k : list N → option (list N)) : option (list N) :=
  let more :=
    match s with
    | c :: s' =>
        if has_room hi && p c
        then rep_lazy p (pred lo) (pred <$> hi) s' k
        else None
    | [] => None
    end in
  match lo with
  | O => or_else (k s) more
  | S _ => more
  end.

Fixpoint m (r : regex) (s : list N) (k : list N → option (list N))
    : option (list N) :=
  match r with
  | Lit c =>
      match s with
      | x :: s' => if char_eq icase c x then k s' else None
      | [] => None
      end
  | Cls p =>
      match s with
      | x :: s' => if p x then k s' else None
      | [] => None
      end
  | Rep greedy p lo hi =>
      if greedy then rep_greedy p lo hi s k else rep_lazy p lo hi s k
  | Seq r1 r2 => m r1 s (λ s1, m r2 s1 k)
  | Alt r1 r2 => or_else (m r1 s k) (m r2 s k)
  | Ahead r1 =>
      match m r1 s Some with
      | Some _ => k s
      | None => None
      end
  | Eoi =>
      match s with
      | [] => k s
      | _ :: _ => None
      end
  end.

(** One match attempt at the current position: the matched text. *)
Definition match_here (r : regex) (s : list N) : option (list N) :=
  (λ rest, take (length s - length rest) s) <$> m r s Some.

(** [regex.test(s)] for a pattern without the [g] flag: some start index
    matches. *)
Fixpoint search (r : regex) (s : list N) : bool :=
  match m r s Some with
  | Some _ => true
  | None =>
      match s with
      | [] => false
      | _ :: s' => search r s'
      end
  end.

(** [s.match(regex) || []] for a pattern with the [g] flag: the matched
    texts of successive matches, each search resuming at [lastIndex].
    [skip] counts the code units still covered by the previous match; an
    empty match advances [lastIndex] by one. *)
Fixpoint scan (r : regex) (skip : nat) (s : list N) : list (list N) :=
  match skip with
  | S n =>
      match s with
      | [] => []
      | _ :: s' => scan r n s'
      end
  | O =>
      match match_here r s with
      | Some mt =>
          mt :: match s with
                | [] => []
                | _ :: s' => scan r (pred (length mt)) s'
                end
      | None =>
          match s with
          | [] => []
          | _ :: s' => scan r 0 s'
          end
      end
  end.
End Matcher.

Definition match_all (p : pattern) (s : list N) : list (list N) :=
  scan (ignoreCase p) (pat p) 0 s.

Definition test (p : pattern) (s : list N) : bool :=
  search (ignoreCase p) (pat p) s.

(** A pattern that starts with [^] (no [m] flag) can only match at index 0:
    [test] is then one attempt there, on the pattern after the anchor. *)
Definition test_anchored (p : pattern) (s : list N) : bool :=
  bool_decide (is_Some (m (ignoreCase p) (pat p) s Some)).

(** Pattern building blocks. *)
Fixpoint seqs (rs : list regex) : regex :=
  match rs with
  | [] => Rep true (λ _, false) 0 (Some 0%nat)
  | r :: rs' =>
      match rs' with
      | [] => r
      | _ :: _ => Seq r (seqs rs')
      end
  end.

Fixpoint alts (rs : list regex) : regex :=
  match rs with
  | [] => Cls (λ _, false)
  | r :: rs' =>
      match rs' with
      | [] => r
      | _ :: _ => Alt r (alts rs')
      end
  end.

Definition chars (cs : list N) : regex := seqs (Lit <$> cs).
Definition word (s : string) : regex := chars (lit s).

Definition is_char (a : N) (c : N) : bool := (c =? a)%N.
(** [[\s\S]]: every code unit. *)
Definition any_char (c : N) : bool := is_space c || negb (is_space c).
Definition not_newline (c : N) : bool := negb (c =? NL)%N.
(** [.] without the [s] flag: anything but a line terminator. *)
Definition dot (c : N) : bool :=
  negb ((c =? 10) || (c =? 13) || (c =? 8232) || (c =? 8233))%N.
Definition is_quote (c : N) : bool := ((c =? 34) || (c =? 39))%N.

Definition star (p : N → bool) : regex := Rep true p 0 None.
Definition plus (p : N → bool) : regex := Rep true p 1 None.
Definition lazy_star (p : N → bool) : regex := Rep false p 0 None.

(** ** smartTruncateReadme *)

Definition hashes : regex := Rep true (is_char 35) 1 (Some 3%nat).

(** [#{1,3}\s*(k1|k2|...)[^\n]*\n[\s\S]*?(?=\n#{1,3}\s|\n*$)] with flags
    [gi]: the shape shared by the three heading patterns. *)
Definition heading_section (keywords : list regex) : pattern :=
  Pattern
    (seqs [hashes; star is_space; alts keywords; star not_newline; Lit NL;
           lazy_star any_char;
           Ahead (Alt (seqs [Lit NL; hashes; Cls is_space])
                      (seqs [star (is_char NL); Eoi]))])
    true.

(** [/```[\s\S]*?```/g] *)
Definition fenced_block : pattern :=
  Pattern (seqs [word "```"; lazy_star any_char; word "```"]) false.

Definition prioritySections : list pattern :=
  [ heading_section
      [word "usage"; chars [20351; 29992]; chars [29992; 27861]; word "cli";
       word "command"; chars [21629; 20196]]%N;
    heading_section
      [word "install"; chars [23433; 35013];
       seqs [word "quick"; star is_space; word "start"];
       chars [24555; 36895; 24320; 22987]]%N;
    heading_section [word "example"; chars [31034; 20363]; word "demo"]%N;
    fenced_block ].

(** The separator of [extracted.join]: two newlines, three dots, two
    newlines. *)
Definition README_SEP : list N := [10; 10; 46; 46; 46; 10; 10]%N.

(** The inner loop over the matches of one pattern; the state is
    [(extracted, remainingBudget)]. *)
Fixpoint keep_matches (intro : list N) (matches : list (list N))
    (st : list (list N) * Z) : list (list N) * Z :=
  match matches with
  | [] => st
  | mt :: rest =>
      let '(extracted, remainingBudget) := st in
      if remainingBudget <=? 0 then st
      else if includes intro mt then keep_matches intro rest st
      else
        let truncated := slice mt 0 remainingBudget in
        if js_length truncated >? 100
        then keep_matches intro rest
               (extracted ++ [truncated], remainingBudget - js_length truncated)
        else keep_matches intro rest st
  end.

(** The outer loop over the priority patterns. *)
Fixpoint keep_sections (content intro : list N) (sections : list pattern)
    (st : list (list N) * Z) : list (list N) * Z :=
  match sections with
  | [] => st
  | regex :: rest =>
      if st.2 <=? 0 then st
      else keep_sections content intro rest
             (keep_matches intro (match_all regex content) st)
  end.

Definition smartTruncateReadme (content : list N) (maxLen : Z) : list N :=
  if falsy content || (js_length content <=? maxLen) then content
  else
    let intro := slice content 0 500 in
    let st := keep_sections content intro prioritySections
                ([intro], maxLen - js_length intro) in
    join README_SEP st.1.

(** ** smartTruncatePython *)

(** [/^(import |from .+ import )/], to be used with [test_anchored]. *)
Definition importPattern : pattern :=
  Pattern (Alt (word "import ")
               (seqs [word "from "; plus dot; word " import "]))
          false.

Definition is_import (line : list N) : bool := test_anchored importPattern line.

(** The first loop: [i] is the index of the head of [lines]; the result is
    [(importLines, importEnd)]. *)
Fixpoint scan_imports (lines : list (list N)) (i : Z)
    (importLines : list (list N)) (importEnd : Z) : list (list N) * Z :=
  match lines with
  | [] => (importLines, importEnd)
  | line :: rest =>
      if is_import line
      then scan_imports rest (i + 1) (importLines ++ [line]) i
      else if (js_length importLines >? 0) && trim_is_empty line
      then scan_imports rest (i + 1) importLines importEnd
      else if js_length importLines >? 0
      then (importLines, importEnd)
      else scan_imports rest (i + 1) importLines importEnd
  end.

Definition entryPatterns : list pattern :=
  [ Pattern (seqs [word "if"; plus is_space; word "__name__"; star is_space;
                   word "=="; star is_space; Cls is_quote; word "__main__";
                   Cls is_quote]) false;
    Pattern (seqs [word "def"; plus is_space;
                   alts [word "main"; word "run"; word "cli"; word "app";
                         word "start"];
                   star is_space; Lit 40%N]) false;
    Pattern (word ".add_command(") false;
    Pattern (seqs [word "@click."; alts [word "command"; word "group"]]) false;
    Pattern (word "argparse.ArgumentParser") false ].

Definition is_entry (line : list N) : bool :=
  existsb (λ pattern, test pattern line) entryPatterns.

(** The backward loop: [rlines] holds [lines[i]], [lines[i-1]], ...,
    [lines[0]]; the result is [entryStart]. *)
Fixpoint find_entry (rlines : list (list N)) (i : Z) : Z :=
  match rlines with
  | [] => -1
  | line :: rest => if is_entry line then i else find_entry rest (i - 1)
  end.

Definition entry_start (lines : list (list N)) : Z :=
  find_entry (reverse lines) (js_length lines - 1).

(** The elision marker pushed between the import block and the code kept:
    a newline, [# ... (], six ideographs, [) ...], a newline. *)
Definition MARKER : list N :=
  [NL] ++ lit "# ... (" ++ [20013; 38388; 20195; 30721; 30465; 30053]%N
       ++ lit ") ..." ++ [NL].

(** Step 3, first part: the import block is pushed only when it is shorter
    than half the budget; the result is [(result, currentLen)]. *)
Definition import_block (maxLen : Z) (importLines : list (list N))
    : list (list N) * Z :=
  let halfBudget := maxLen / 2 in
  let importSection := join [NL] importLines in
  if js_length importSection <? halfBudget
  then ([importSection], js_length importSection)
  else ([], 0).

Definition context_start (entryStart importEnd : Z) : Z :=
  Z.max (entryStart - 20) (importEnd + 1).

Definition entry_section (lines : list (list N)) (contextStart : Z) : list N :=
  join [NL] (slice_from lines contextStart).

(** The branch taken when an entry point was found. *)
Definition entry_block (maxLen : Z) (lines : list (list N))
    (importEnd entryStart : Z) (st : list (list N) * Z) : list (list N) :=
  let '(result, currentLen) := st in
  let contextStart := context_start entryStart importEnd in
  let entrySection := entry_section lines contextStart in
  if currentLen + js_length entrySection <=? maxLen then
    (if contextStart >? importEnd + 1 then result ++ [MARKER] else result)
      ++ [entrySection]
  else
    let remaining := maxLen - currentLen - 50 in
    if remaining >? 0
    then result ++ [MARKER; slice_from entrySection (- remaining)]
    else result.

(** The branch taken when no entry point was found: head and tail.  The
    arguments [remaining / 2] and [-remaining / 2] of [slice] are truncated
    toward zero. *)
Definition head_tail_block (maxLen : Z) (lines : list (list N))
    (importEnd : Z) (st : list (list N) * Z) : list (list N) :=
  let '(result, currentLen) := st in
  let remaining := maxLen - currentLen in
  let middleContent := join [NL] (slice_from lines (importEnd + 1)) in
  if js_length middleContent <=? remaining
  then result ++ [middleContent]
  else result ++ [slice middleContent 0 (Z.quot remaining 2); MARKER;
                  slice_from middleContent (Z.quot (- remaining) 2)].

Definition smartTruncatePython (content : list N) (maxLen : Z) : list N :=
  if falsy content || (js_length content <=? maxLen) then content
  else
    let lines := split_lines content in
    let '(importLines, importEnd) := scan_imports lines 0 [] 0 in
    let entryStart := entry_start lines in
    let st := import_block maxLen importLines in
    let result :=
      if negb (entryStart =? -1)
      then entry_block maxLen lines importEnd entryStart st
      else head_tail_block maxLen lines importEnd st in
    join [NL] result.

(** ** truncateFilesByBudget *)

(** [files.sort((a, b) => a[1].length - b[1].length)]: the sort is stable,
    so an entry moves behind a later one only when it is strictly longer. *)
Fixpoint insert_by_length (x : list N * list N) (l : list (list N * list N))
    : list (list N * list N) :=
  match l with
  | [] => [x]
  | y :: l' =>
      if js_length x.2 - js_length y.2 >? 0
      then y :: insert_by_length x l'
      else x :: l
  end.

Definition sort_by_length (files : list (list N * list N))
    : list (list N * list N) :=
  foldr insert_by_length [] files.

(** The loop over the sorted entries; [truncateFn] is [None] when the
    caller passes no function.  [result[fileName].length] reads back the
    excerpt just stored. *)
Fixpoint allocate (truncateFn : option (list N → Z → list N))
    (perFileBudget : Z) (files : list (list N * list N))
    (result : gmap (list N) (list N)) (remaining : Z)
    : gmap (list N) (list N) :=
  match files with
  | [] => result
  | (fileName, content) :: rest =>
      if remaining <=? 0 then result
      else
        let budget := Z.min remaining (Z.max perFileBudget 500) in
        let excerpt :=
          match truncateFn with
          | Some f => f content budget
          | None => slice content 0 budget
          end in
        allocate truncateFn perFileBudget rest
          (<[fileName := excerpt]> result) (remaining - js_length excerpt)
  end.

(** [fileContents] is the [Object.entries] list of the argument. *)
Definition truncateFilesByBudget (fileContents : list (list N * list N))
    (totalBudget : Z) (truncateFn : option (list N → Z → list N))
    : gmap (list N) (list N) :=
  let files := fileContents in
  if js_length files =? 0 then ∅
  else
    let files := sort_by_length files in
    let perFileBudget := totalBudget / js_length files in
    allocate truncateFn perFileBudget files ∅ totalBudget.

(** The total length of the excerpts of a result object. *)
Definition total_length (result : gmap (list N) (list N)) : Z :=
  map_fold (λ _ excerpt acc, js_length excerpt + acc) 0 result.



(** ** Sample documents *)


(** A manifest of 8 characters and one of 600, for a budget of 700. *)
Definition uneven_manifests : list (list N * list N) :=
  [(lit "requirements.txt", replicate 600 120%N); (lit "setup.cfg", lit "requests")].

(** ** Specification-side notions *)

Fixpoint take_while {A} (p : A → bool) (l : list A) : list A :=
  match l with
  | [] => []
  | x :: l' => if p x then x :: take_while p l' else []
  end.

Fixpoint drop_while {A} (p : A → bool) (l : list A) : list A :=
  match l with
  | [] => []
  | x :: l' => if p x then drop_while p l' else l
  end.

(** The import preamble in words: skip to the first import-style line, take
    the run of import-style or blank lines that starts there, and keep the
    import-style lines of that run. *)
Definition import_preamble (lines : list (list N)) : list (list N) :=
  List.filter is_import
    (take_while (λ line, is_import line || trim_is_empty line)
       (drop_while (λ line, negb (is_import line)) lines)).

(** A script whose first line is a shebang, followed by an import. *)
Definition shebang_script : list N :=
  join [NL] [lit "#!/usr/bin/env python"; lit "import os"; lit "print(os.name)"].

(** The guard line [if __name__ == "__main__": run()]. *)
Definition MAIN_GUARD : list N :=
  lit "if __name__ == " ++ [34%N] ++ lit "__main__" ++ [34%N] ++ lit ": run()".

(** A numbered filler statement, [    step(NN)  # filler]. *)
Definition filler (n : nat) : list N :=
  lit "    step(" ++ [N.of_nat (48 + n / 10); N.of_nat (48 + n mod 10)]
    ++ lit ")  # filler".

(** The file of the example scenario: 50 lines, five imports, [def run():]
    on line 30 and the guard on line 48. *)
Definition scenario_lines : list (list N) :=
  [lit "import os"; lit "import sys"; lit "import json"; lit "import re";
   lit "import time"]
  ++ (filler <$> seq 6 24) ++ [lit "def run():"] ++ (filler <$> seq 31 17)
  ++ [MAIN_GUARD] ++ (filler <$> seq 49 2).

Definition scenario_file : list N := join [NL] scenario_lines.


(** [sub] occurs in [s] as a contiguous run of code units. *)
Definition occurs_in (sub s : list N) : Prop := ∃ pre post, s = pre ++ sub ++ post.

(** A fenced code block of 102 characters: two fences around 96 letters. *)
Definition BLOCK : list N := lit "```" ++ replicate 96 120%N ++ lit "```".

(** A readme whose 500-character introduction is followed by one fenced
    block of 206 characters. *)
Definition LONG_BLOCK : list N := lit "```" ++ replicate 200 120%N ++ lit "```".
Definition one_block_readme : list N := replicate 500 97%N ++ LONG_BLOCK.

(** A readme whose 500-character introduction is followed by [n] fenced
    blocks of 102 characters each. *)
Definition blocks_readme (n : nat) : list N :=
  replicate 500 97%N ++ concat (replicate n BLOCK).

(** The total length of a list of string pieces. *)
Definition sum_lengths (parts : list (list N)) : Z :=
  foldr (λ part acc, js_length part + acc) 0 parts.

(** What the two loops of the prose extractor preserve: the pieces and the
    remaining budget add up to the same total, the budget stays non-negative,
    and every piece added is longer than 100. *)
Definition keeps_budget (st st' : list (list N) * Z) : Prop :=
  sum_lengths st'.1 + st'.2 = sum_lengths st.1 + st.2
  ∧ (0 ≤ st.2 → 0 ≤ st'.2)
  ∧ 101 * (js_length st'.1 - js_length st.1) ≤ st.2 - st'.2.

(** ** What a pattern matches

    [matches icase r x rest]: the pattern [r] matches the text [x] when
    [rest] is what follows [x] in the input, which the look-ahead and [$]
    read.  This is the declarative reading of a pattern, without the order
    in which the matcher tries the alternatives. *)

Inductive matches (icase : bool) : regex → list N → list N → Prop :=
| matches_Lit c x rest :
    char_eq icase c x = true → matches icase (Lit c) [x] rest
| matches_Cls p x rest :
    p x = true → matches icase (Cls p) [x] rest
| matches_Rep greedy p lo hi xs rest :
    Forall (λ x, p x = true) xs →
    (lo ≤ length xs)%nat →
    (∀ n, hi = Some n → (length xs ≤ n)%nat) →
    matches icase (Rep greedy p lo hi) xs rest
| matches_Seq r1 r2 x1 x2 rest :
    matches icase r1 x1 (x2 ++ rest) →
    matches icase r2 x2 rest →
    matches icase (Seq r1 r2) (x1 ++ x2) rest
| matches_Alt_l r1 r2 x rest :
    matches icase r1 x rest → matches icase (Alt r1 r2) x rest
| matches_Alt_r r1 r2 x rest :
    matches icase r2 x rest → matches icase (Alt r1 r2) x rest
| matches_Ahead r x rest :
    matches icase r x rest → matches icase (Ahead r) [] (x ++ rest)
| matches_Eoi :
    matches icase Eoi [] [].

(** The texts a quantified class admits. *)
Definition rep_ok (p : N → bool) (lo : nat) (hi : option nat) (xs : list N) : Prop :=
  Forall (λ x, p x = true) xs ∧ (lo ≤ length xs)%nat
  ∧ ∀ n, hi = Some n → (length xs ≤ n)%nat.

(** ** Entry signatures in words *)

(** Runs of white space, as [\s] takes them. *)
Definition spaces (ws : list N) : Prop := Forall (λ c, is_space c = true) ws.

(** A line that holds the executable guard: [if], white space, [__name__],
    [==] with optional white space around it, and [__main__] between single
    or double quotes. *)
Definition guard_line (line : list N) : Prop :=
  ∃ pre ws1 ws2 ws3 q1 q2 post,
    line = pre ++ lit "if" ++ ws1 ++ lit "__name__" ++ ws2 ++ lit "=="
               ++ ws3 ++ [q1] ++ lit "__main__" ++ [q2] ++ post
    ∧ ws1 ≠ [] ∧ spaces ws1 ∧ spaces ws2 ∧ spaces ws3
    ∧ is_quote q1 = true ∧ is_quote q2 = true.

(** A line that holds the definition of one of the five entry functions:
    [def], white space, the name, optional white space, an opening
    parenthesis. *)
Definition def_line (line : list N) : Prop :=
  ∃ pre ws1 name ws2 post,
    line = pre ++ lit "def" ++ ws1 ++ name ++ ws2 ++ lit "(" ++ post
    ∧ ws1 ≠ [] ∧ spaces ws1 ∧ spaces ws2
    ∧ name ∈ [lit "main"; lit "run"; lit "cli"; lit "app"; lit "start"].

(** ** The order of processing *)

(** [f] is no longer than [g]: what the comparator of the sort orders by. *)
Definition no_longer (f g : list N * list N) : Prop :=
  js_length f.2 ≤ js_length g.2.

(** The entries whose content has length [L]. *)
Definition of_length (L : Z) (f : list N * list N) : Prop := js_length f.2 = L.

Global Instance of_length_dec L f : Decision (of_length L f).
Proof. unfold of_length. apply _. Defined.

(** The excerpt of one document: the caller's function, or the plain slice. *)
Definition excerpt_of (truncateFn : option (list N → Z → list N))
    (content : list N) (budget : Z) : list N :=
  match truncateFn with
  | Some f => f content budget
  | None => slice content 0 budget
  end.

(** Three manifests of 600, 700 and 800 characters. *)
Definition three_manifests : list (list N * list N) :=
  [(lit "setup.py", replicate 600 120%N);
   (lit "requirements.txt", replicate 700 121%N);
   (lit "Pipfile", replicate 800 122%N)].

(** ** The fragments of the prose extractor *)

(** [fs] is taken from the matches [ms] of one pattern: each fragment is the
    beginning of a match, longer than 100 characters, and the fragments come
    in the order of the matches they are cut from. *)
Definition picked (fs ms : list (list N)) : Prop :=
  ∃ sub, sub `sublist_of` ms
         ∧ Forall2 (λ f mt, f `prefix_of` mt ∧ 100 < js_length f) fs sub.

(** A readme whose examples come before its usage section. *)
Definition tiered_readme : list N :=
  lit "# demo" ++ [NL] ++ replicate 600 120%N ++ [NL]
  ++ lit "## Examples" ++ [NL] ++ replicate 150 101%N ++ [NL]
  ++ lit "## Usage" ++ [NL] ++ replicate 150 117%N ++ [NL].

(** ** The state of the import scan *)

(** What the loop over the lines maintains, [pre] being the lines read so
    far: [importLines] are the import lines among them, and [importEnd] is
    the index of the last one, or 0 while there is none. *)
Definition import_state (pre importLines : list (list N)) (importEnd : Z) : Prop :=
  importLines = List.filter is_import pre
  ∧ 0 ≤ importEnd
  ∧ (importLines = [] → importEnd = 0)
  ∧ (importLines ≠ [] →
     ∃ line, pre !! Z.to_nat importEnd = Some line ∧ is_import line = true
             ∧ last importLines = Some line
             ∧ Forall (λ l, is_import l = false) (drop (Z.to_nat importEnd + 1) pre)).

(** Two assignments, no import and no entry point. *)
Definition two_assignments : list N := lit "x = 1" ++ [NL] ++ lit "y = 2".

(** ** Cleaning the generated manifest

    [createPCbyAI] trims the text of the completion and removes a Markdown
    fence around it:
    [content.trim()], then [.replace(/^```toml?\n?/i, ...)] and
    [.replace(/\n?```$/i, ...)], both with the empty replacement. *)

(** [s.trim()]: white space and line terminators are removed at both ends. *)
Definition trim (s : list N) : list N :=
  reverse (drop_while is_space (reverse (drop_while is_space s))).

(** [s.replace(r, ...)] with the empty replacement, for a pattern without the
    [g] flag: the first match, looked for from the left, is removed. *)
Fixpoint remove_first (icase : bool) (r : regex) (s : list N) : list N :=
  match m icase r s Some with
  | Some rest => rest
  | None =>
      match s with
      | [] => []
      | c :: s' => c :: remove_first icase r s'
      end
  end.

(** The same for a pattern that starts with [^]: a match is tried at index 0
    only. *)
Definition remove_anchored (icase : bool) (r : regex) (s : list N) : list N :=
  match m icase r s Some with
  | Some rest => rest
  | None => s
  end.

(** [x?] *)
Definition opt (p : N → bool) : regex := Rep true p 0 (Some 1%nat).

(** [/^```toml?\n?/i], after its anchor. *)
Definition openingFence : pattern :=
  Pattern (seqs [word "```tom"; opt (char_eq true 108); opt (is_char NL)]) true.

(** [/\n?```$/i] *)
Definition closingFence : pattern :=
  Pattern (seqs [opt (is_char NL); word "```"; Eoi]) true.

Definition clean_response (raw : list N) : list N :=
  let content := trim raw in
  remove_first (ignoreCase closingFence) (pat closingFence)
    (remove_anchored (ignoreCase openingFence) (pat openingFence) content).

Definition FENCE : list N := lit "```".

(** * Properties *)

(** ** The primitives on small inputs *)

Example slice_negative_end : slice (lit "abcdef") 0 (-2) = lit "abcd".
Proof. reflexivity. Qed.

Example slice_from_negative : slice_from (lit "abcdef") (-2) = lit "ef".
Proof. reflexivity. Qed.

Example slice_from_zero : slice_from (lit "abcdef") (Z.quot (-1) 2) = lit "abcdef".
Proof. reflexivity. Qed.

Example split_trailing_newline :
  split_lines (lit "a" ++ [NL]) = [lit "a"; []].
Proof. reflexivity. Qed.

Example import_lines :
  is_import (lit "import os") = true
  ∧ is_import (lit "from pathlib import Path") = true
  ∧ is_import (lit "  import os") = false
  ∧ is_import (lit "important = 1") = false.
Proof. by vm_compute. Qed.

Example entry_lines :
  is_entry MAIN_GUARD = true
  ∧ is_entry (lit "if __name__=='__main__':") = true
  ∧ is_entry (lit "def  cli (ctx):") = true
  ∧ is_entry (lit "cli.add_command(run)") = true
  ∧ is_entry (lit "@click.group()") = true
  ∧ is_entry (lit "parser = argparse.ArgumentParser()") = true
  ∧ is_entry (lit "def mainly():") = false
  ∧ is_entry (lit "x = 1") = false.
Proof. by vm_compute. Qed.

(** A heading section runs up to the next heading of one to three hashes,
    whatever its level, or to the end; the keyword is matched without regard
    to case. *)
Example usage_section :
  match_all (heading_section [word "usage"])
    (join [NL] [lit "# Tool"; lit "## USAGE"; lit "run it"; lit "### More";
                lit "x"; lit "#### usage notes"; lit "y"; lit ""])
  = [join [NL] [lit "## USAGE"; lit "run it"];
     join [NL] [lit "### usage notes"; lit "y"]].
Proof. reflexivity. Qed.

(** Fenced blocks are matched lazily, one after the other. *)
Example fenced_blocks :
  match_all fenced_block (lit "a```x```b``````c```")
  = [lit "```x```"; lit "``````"].
Proof. reflexivity. Qed.

(** ** Lengths and slices *)

Lemma js_length_nonneg {A} (s : list A) : 0 ≤ js_length s.
Proof. unfold js_length. lia. Qed.

Lemma js_length_app {A} (s t : list A) :
  js_length (s ++ t) = js_length s + js_length t.
Proof. unfold js_length. rewrite length_app. lia. Qed.

Lemma js_length_cons {A} (x : A) (s : list A) :
  js_length (x :: s) = 1 + js_length s.
Proof. unfold js_length. cbn [length]. lia. Qed.

Lemma clamp_index_nonneg len i : 0 ≤ i → clamp_index len i = Z.min i len.
Proof. intros Hi. unfold clamp_index. destruct (Z.ltb_spec i 0); [lia | done]. Qed.

Lemma clamp_index_neg len i :
  i < 0 → clamp_index len i = Z.max (len + i) 0.
Proof. intros Hi. unfold clamp_index. destruct (Z.ltb_spec i 0); [done | lia]. Qed.

Lemma slice_prefix {A} (s : list A) n :
  0 ≤ n → slice s 0 n = take (Z.to_nat n) s.
Proof.
  intros Hn. unfold slice.
  rewrite !clamp_index_nonneg by (done || apply js_length_nonneg).
  pose proof (js_length_nonneg s) as Hs. unfold js_length in *.
  rewrite (Z.min_l 0) by lia. rewrite Z2Nat.inj_0, drop_0, Z.sub_0_r.
  destruct (Z.le_gt_cases n (Z.of_nat (length s))).
  - by rewrite Z.min_l.
  - rewrite Z.min_r by lia. rewrite Nat2Z.id.
    rewrite (take_ge s (length s)) by lia. by rewrite take_ge by lia.
Qed.

Lemma slice_whole {A} (s : list A) n : js_length s ≤ n → slice s 0 n = s.
Proof.
  intros Hn. pose proof (js_length_nonneg s). rewrite slice_prefix by lia.
  apply take_ge. unfold js_length in *. lia.
Qed.

Lemma js_length_slice_prefix {A} (s : list A) n :
  0 ≤ n → js_length (slice s 0 n) = Z.min n (js_length s).
Proof.
  intros Hn. rewrite slice_prefix by done. unfold js_length.
  rewrite length_take. lia.
Qed.

Lemma slice_from_drop {A} (s : list A) n :
  0 ≤ n → slice_from s n = drop (Z.to_nat n) s.
Proof.
  intros Hn. unfold slice_from, slice. pose proof (js_length_nonneg s) as Hs.
  rewrite !clamp_index_nonneg by done. rewrite Z.min_id.
  unfold js_length in *.
  destruct (Z.le_gt_cases n (Z.of_nat (length s))).
  - rewrite Z.min_l by done. apply take_ge. rewrite length_drop. lia.
  - rewrite Z.min_r by lia. rewrite Z.sub_diag, Z2Nat.inj_0, take_0.
    symmetry. apply drop_ge. lia.
Qed.

Lemma slice_from_suffix {A} (s : list A) n :
  0 < n → slice_from s (- n) = drop (length s - Z.to_nat n) s.
Proof.
  intros Hn. unfold slice_from, slice. pose proof (js_length_nonneg s) as Hs.
  rewrite (clamp_index_neg _ (- n)) by lia.
  rewrite (clamp_index_nonneg _ (js_length s)) by done.
  rewrite Z.min_id. unfold js_length in *.
  replace (Z.to_nat (Z.max (Z.of_nat (length s) + - n) 0))
    with (length s - Z.to_nat n)%nat by lia.
  apply take_ge. rewrite length_drop. lia.
Qed.

Lemma js_length_slice_le {A} (s : list A) a b :
  js_length (slice s a b) ≤ js_length s.
Proof.
  unfold slice, js_length. rewrite length_take, length_drop. lia.
Qed.

(** ** The result object *)

Lemma total_length_empty : total_length ∅ = 0.
Proof. unfold total_length. by rewrite map_fold_empty. Qed.

Lemma total_length_insert_fresh (result : gmap (list N) (list N)) k v :
  result !! k = None →
  total_length (<[k:=v]> result) = js_length v + total_length result.
Proof.
  intros Hk. unfold total_length.
  rewrite map_fold_insert_L; [done | intros; lia | done].
Qed.

Lemma total_length_nonneg (result : gmap (list N) (list N)) :
  0 ≤ total_length result.
Proof.
  induction result as [|k v result Hk IH] using map_ind.
  - by rewrite total_length_empty.
  - rewrite total_length_insert_fresh by done.
    pose proof (js_length_nonneg v). lia.
Qed.

Lemma total_length_delete_le (result : gmap (list N) (list N)) k :
  total_length (delete k result) ≤ total_length result.
Proof.
  destruct (result !! k) as [v|] eqn:Hk.
  - rewrite <- (insert_delete_id result k v) at 2 by done.
    rewrite total_length_insert_fresh by apply lookup_delete_eq.
    pose proof (js_length_nonneg v). lia.
  - by rewrite delete_id.
Qed.

Lemma total_length_insert_le (result : gmap (list N) (list N)) k v :
  total_length (<[k:=v]> result) ≤ js_length v + total_length result.
Proof.
  rewrite <- insert_delete_eq.
  rewrite total_length_insert_fresh by apply lookup_delete_eq.
  pose proof (total_length_delete_le result k). lia.
Qed.

(** ** The allocator *)

Section Allocator.
Implicit Types (files : list (list N * list N)).
Implicit Types (result : gmap (list N) (list N)).

Lemma insert_by_length_perm x files : insert_by_length x files ≡ₚ x :: files.
Proof.
  induction files as [|y files IH]; cbn; [done|].
  destruct (_ >? 0); [|done].
  rewrite IH. apply perm_swap.
Qed.

Lemma sort_by_length_perm files : sort_by_length files ≡ₚ files.
Proof.
  induction files as [|x files IH]; cbn; [done|].
  fold (sort_by_length files). by rewrite insert_by_length_perm, IH.
Qed.

Lemma js_length_sort files :
  js_length (sort_by_length files) = js_length files.
Proof. unfold js_length. by rewrite sort_by_length_perm. Qed.



(** The loop never hands out more than what is left. *)
Lemma allocate_bounded T cap files result remaining :
  (∀ content budget, 0 ≤ budget → js_length (T content budget) ≤ budget) →
  0 ≤ remaining →
  total_length (allocate (Some T) cap files result remaining)
    ≤ total_length result + remaining.
Proof.
  intros HT. revert result remaining.
  induction files as [|[fileName content] files IH]; intros result remaining Hrem.
  - cbn. lia.
  - cbn. destruct (Z.leb_spec remaining 0) as [|Hpos]; [lia|].
    set (budget := Z.min remaining (Z.max cap 500)).
    assert (0 ≤ budget ≤ remaining) as Hb by (unfold budget; lia).
    pose proof (HT content budget (proj1 Hb)) as Hlen.
    pose proof (js_length_nonneg (T content budget)).
    etrans; [apply IH; lia|].
    pose proof (total_length_insert_le result fileName (T content budget)).
    lia.
Qed.




End Allocator.

(** ** Identity and allocator results *)

Lemma identity_fits (content : list N) (maxLen : Z) :
  js_length content ≤ maxLen →
  smartTruncateReadme content maxLen = content
  ∧ smartTruncatePython content maxLen = content.
Proof.
  intros Hfit. apply Z.leb_le in Hfit.
  unfold smartTruncateReadme, smartTruncatePython.
  by rewrite Hfit, orb_true_r.
Qed.

(** C1 (identity): content that fits in [maxLen] is returned unchanged by
    both the prose extractor and the source-code extractor. *)
Theorem identity_within_budget (content : list N) (maxLen : Z) :
  js_length content ≤ maxLen →
  smartTruncateReadme content maxLen = content
  ∧ smartTruncatePython content maxLen = content.
Proof. apply identity_fits. Qed.

Lemma identity_within_budget_witness :
  smartTruncateReadme (lit "# Title") (readme TOKEN_BUDGET) = lit "# Title"
  ∧ smartTruncatePython (lit "# Title") (readme TOKEN_BUDGET) = lit "# Title".
Proof. apply identity_within_budget. vm_compute. discriminate. Defined.

Lemma truncateFilesByBudget_nonempty files B truncateFn :
  files ≠ [] →
  truncateFilesByBudget files B truncateFn
    = allocate truncateFn (B / js_length files) (sort_by_length files) ∅ B.
Proof.
  intros Hne. unfold truncateFilesByBudget.
  destruct (Z.eqb_spec (js_length files) 0) as [H0|_].
  - destruct files; [done|]. rewrite js_length_cons in H0.
    pose proof (js_length_nonneg files). lia.
  - by rewrite js_length_sort.
Qed.


(** C4 (budget-plan invariant): with a truncation function that respects
    the length it is given, the excerpts produced for a budget [B] add up to
    at most [B], whatever the floor minimum of 500 hands to each file. *)
Theorem budget_plan_invariant (files : list (list N * list N)) (B : Z)
    (T : list N → Z → list N) :
  0 ≤ B →
  (∀ content m, 0 ≤ m → js_length (T content m) ≤ m) →
  total_length (truncateFilesByBudget files B (Some T)) ≤ B.
Proof.
  intros HB HT. destruct files as [|file files].
  - replace (truncateFilesByBudget [] B (Some T))
      with (∅ : gmap (list N) (list N)) by done.
    by rewrite total_length_empty.
  - rewrite truncateFilesByBudget_nonempty by done.
    etrans; [by apply allocate_bounded|].
    rewrite total_length_empty. lia.
Qed.

Ltac by_decide := apply (bool_decide_unpack _); vm_compute; exact I.



Lemma plain_slice_bounded (content : list N) (m : Z) :
  0 ≤ m → js_length (slice content 0 m) ≤ m.
Proof. intros Hm. rewrite js_length_slice_prefix by done. lia. Qed.

Lemma budget_plan_invariant_witness :
  total_length
    (truncateFilesByBudget uneven_manifests (configFiles TOKEN_BUDGET)
       (Some (λ c m, slice c 0 m)))
  ≤ configFiles TOKEN_BUDGET.
Proof.
  apply budget_plan_invariant.
  - vm_compute. discriminate.
  - intros content m Hm. by apply plain_slice_bounded.
Defined.

(** ** Lines *)

Lemma join_cons_cons sep p q ps :
  join sep (p :: q :: ps) = p ++ sep ++ join sep (q :: ps).
Proof. done. Qed.

Lemma split_lines_nonempty s : split_lines s ≠ [].
Proof.
  destruct s as [|c s]; [done|]. cbn.
  destruct (c =? NL)%N; [done|]. by destruct (split_lines s).
Qed.

Lemma split_lines_app l s :
  NL ∉ l → split_lines (l ++ NL :: s) = l :: split_lines s.
Proof.
  induction l as [|c l IH]; intros Hl; [done|].
  apply not_elem_of_cons in Hl as [Hc Hl]. cbn.
  destruct (N.eqb_spec c NL) as [->|_]; [done|]. by rewrite IH.
Qed.

Lemma split_lines_line l : NL ∉ l → split_lines l = [l].
Proof.
  induction l as [|c l IH]; intros Hl; [done|].
  apply not_elem_of_cons in Hl as [Hc Hl]. cbn.
  destruct (N.eqb_spec c NL) as [->|_]; [done|]. by rewrite IH.
Qed.

Lemma split_lines_join lines :
  lines ≠ [] → Forall (λ l, NL ∉ l) lines →
  split_lines (join [NL] lines) = lines.
Proof.
  induction lines as [|l lines IH]; intros Hne Hnl; [done|].
  apply Forall_cons in Hnl as [Hl Hnl]. destruct lines as [|l' lines].
  - by apply split_lines_line.
  - rewrite join_cons_cons. cbn [app]. rewrite split_lines_app by done.
    by rewrite IH.
Qed.

Lemma join_split_lines s : join [NL] (split_lines s) = s.
Proof.
  induction s as [|c s IH]; [done|]. cbn [split_lines].
  destruct (N.eqb_spec c NL) as [->|_].
  - destruct (split_lines s) eqn:Hs; [by apply split_lines_nonempty in Hs|].
    rewrite join_cons_cons. by rewrite IH.
  - destruct (split_lines s) as [|l [|l' ls]] eqn:Hs.
    + by apply split_lines_nonempty in Hs.
    + cbn in IH |- *. by rewrite IH.
    + rewrite join_cons_cons in IH |- *. by rewrite <- IH.
Qed.

(** ** The import scan *)

Lemma scan_imports_none lines i importEnd :
  Forall (λ line, is_import line = false) lines →
  scan_imports lines i [] importEnd = ([], importEnd).
Proof.
  revert i. induction lines as [|line lines IH]; intros i Hno; [done|].
  apply Forall_cons in Hno as [Hline Hno]. cbn. rewrite Hline. cbn.
  by apply IH.
Qed.

(** Once an import line has been collected, the scan takes the run of
    import-style or blank lines and keeps the import-style ones. *)
Lemma scan_imports_run lines i importLines importEnd :
  importLines ≠ [] →
  (scan_imports lines i importLines importEnd).1
    = importLines
      ++ List.filter is_import
           (take_while (λ line, is_import line || trim_is_empty line) lines).
Proof.
  revert i importLines importEnd.
  induction lines as [|line lines IH]; intros i importLines importEnd Hne.
  - cbn. by rewrite app_nil_r.
  - cbn. assert ((js_length importLines >? 0) = true) as ->.
    { destruct importLines; [done|]. rewrite js_length_cons.
      pose proof (js_length_nonneg importLines). lia. }
    destruct (is_import line) eqn:Himp; cbn.
    + rewrite Himp. rewrite IH by by destruct importLines.
      by rewrite <- app_assoc.
    + destruct (trim_is_empty line); cbn.
      * rewrite Himp. by apply IH.
      * by rewrite app_nil_r.
Qed.

Lemma scan_imports_preamble lines i importEnd :
  (scan_imports lines i [] importEnd).1 = import_preamble lines.
Proof.
  unfold import_preamble. revert i importEnd.
  induction lines as [|line lines IH]; intros i importEnd; [done|].
  cbn. destruct (is_import line) eqn:Himp; cbn.
  - rewrite Himp. cbn. rewrite Himp. by rewrite scan_imports_run.
  - apply IH.
Qed.

Lemma import_preamble_nil lines :
  import_preamble lines = [] ↔ Forall (λ line, is_import line = false) lines.
Proof.
  unfold import_preamble. induction lines as [|line lines IH]; [done|].
  cbn. destruct (is_import line) eqn:Himp; cbn.
  - rewrite Himp. cbn. rewrite Himp. split; [done|].
    intros H. apply Forall_cons in H as [? _]. congruence.
  - rewrite IH. split; [by constructor|]. by intros [_ ?]%Forall_cons.
Qed.

(** ** The backward entry scan *)

Lemma find_entry_none rlines i :
  Forall (λ line, is_entry line = false) rlines → find_entry rlines i = -1.
Proof.
  revert i. induction rlines as [|line rlines IH]; intros i Hno; [done|].
  apply Forall_cons in Hno as [Hline Hno]. cbn [find_entry]. rewrite Hline.
  by apply IH.
Qed.

Lemma find_entry_first after line before i :
  Forall (λ line, is_entry line = false) after →
  is_entry line = true →
  find_entry (after ++ line :: before) i = i - js_length after.
Proof.
  revert i. induction after as [|l after IH]; intros i Hno Hline.
  - cbn [app find_entry]. rewrite Hline. unfold js_length. cbn. lia.
  - apply Forall_cons in Hno as [Hl Hno]. cbn [app find_entry]. rewrite Hl.
    rewrite IH by done. rewrite js_length_cons. lia.
Qed.

Lemma entry_start_none lines :
  Forall (λ line, is_entry line = false) lines → entry_start lines = -1.
Proof. intros Hno. apply find_entry_none. by apply Forall_reverse. Qed.

Lemma entry_start_last before line after :
  is_entry line = true →
  Forall (λ line, is_entry line = false) after →
  entry_start (before ++ line :: after) = js_length before.
Proof.
  intros Hline Hno. unfold entry_start.
  rewrite reverse_app, reverse_cons, <- app_assoc. cbn [app].
  rewrite find_entry_first; [|by apply Forall_reverse|done].
  unfold js_length. rewrite length_reverse, length_app. cbn [length]. lia.
Qed.


(** ** Source-code extraction *)

Lemma scan_imports_end_nonneg lines i importLines importEnd :
  0 ≤ i → 0 ≤ importEnd → 0 ≤ (scan_imports lines i importLines importEnd).2.
Proof.
  revert i importLines importEnd.
  induction lines as [|line lines IH]; intros i importLines importEnd Hi He;
    [done|].
  cbn. destruct (is_import line); [apply IH; lia|].
  destruct (_ && _); [apply IH; lia|].
  destruct (_ >? 0); [done | apply IH; lia].
Qed.


Lemma smartTruncatePython_long content maxLen :
  content ≠ [] → maxLen < js_length content →
  smartTruncatePython content maxLen =
    let lines := split_lines content in
    let importLines := (scan_imports lines 0 [] 0).1 in
    let importEnd := (scan_imports lines 0 [] 0).2 in
    let st := import_block maxLen importLines in
    join [NL]
      (if negb (entry_start lines =? -1)
       then entry_block maxLen lines importEnd (entry_start lines) st
       else head_tail_block maxLen lines importEnd st).
Proof.
  intros Hne Hlong. unfold smartTruncatePython.
  destruct content; [done|]. cbn [falsy orb].
  destruct (Z.leb_spec (js_length (n :: content)) maxLen); [lia|].
  by destruct (scan_imports _ _ _ _).
Qed.

(** C10 (first line lost in the fallback): for a non-empty document longer
    than [maxLen] with no import-style line and no entry signature, the
    output is assembled from the text after the first line only (the body is
    [lines.slice(1)], as [importEnd] stays 0): whole when it fits, else its
    head and tail around the marker. *)
Theorem fallback_drops_first_line (content : list N) (maxLen : Z) :
  content ≠ [] →
  maxLen < js_length content →
  Forall (λ line, is_import line = false) (split_lines content) →
  Forall (λ line, is_entry line = false) (split_lines content) →
  ∃ first rest,
    split_lines content = first :: rest
    ∧ smartTruncatePython content maxLen =
        let body := join [NL] rest in
        join [NL]
          ((if 0 <? maxLen / 2 then [[]] else [])
           ++ (if js_length body <=? maxLen then [body]
               else [slice body 0 (Z.quot maxLen 2); MARKER;
                     slice_from body (Z.quot (- maxLen) 2)])).
Proof.
  intros Hne Hlong Himp Hentry.
  destruct (split_lines content) as [|first rest] eqn:Hlines;
    [by apply split_lines_nonempty in Hlines|].
  exists first, rest. split; [done|].
  rewrite smartTruncatePython_long by done. rewrite Hlines. cbv zeta.
  rewrite scan_imports_none by done.
  rewrite entry_start_none by done. rewrite Z.eqb_refl. cbn [negb fst snd].
  unfold head_tail_block, import_block. cbn [join].
  change (js_length []) with 0.
  replace (slice_from (first :: rest) (0 + 1)) with rest
    by (by rewrite slice_from_drop).
  destruct (0 <? maxLen / 2); cbv beta iota zeta; rewrite Z.sub_0_r;
    by destruct (_ <=? maxLen).
Qed.

Lemma fallback_drops_first_line_witness :
  ∃ first rest,
    split_lines (lit "print(1)") = first :: rest
    ∧ smartTruncatePython (lit "print(1)") 4 =
        let body := join [NL] rest in
        join [NL]
          ((if 0 <? 4 / 2 then [[]] else [])
           ++ (if js_length body <=? 4 then [body]
               else [slice body 0 (Z.quot 4 2); MARKER;
                     slice_from body (Z.quot (- 4) 2)])).
Proof.
  apply fallback_drops_first_line.
  - discriminate.
  - vm_compute. reflexivity.
  - by_decide.
  - by_decide.
Defined.

(** C8 (import preamble, amended): the import block collected by the scan
    is the run of import-style or blank lines that starts at the first
    import-style line of the file, wherever that line is, reduced to its
    import-style lines; it is empty exactly when the file has no
    import-style line at all. *)
Theorem import_preamble_identification (content : list N) :
  (scan_imports (split_lines content) 0 [] 0).1
    = import_preamble (split_lines content)
  ∧ (import_preamble (split_lines content) = []
     ↔ Forall (λ line, is_import line = false) (split_lines content)).
Proof. split; [apply scan_imports_preamble | apply import_preamble_nil]. Qed.

(** C8 as stated fails: the first non-blank line of this file is a shebang,
    not an import-style line, and the preamble collected is [import os]. *)
Lemma import_preamble_counterexample :
  split_lines shebang_script !! 0%nat = Some (lit "#!/usr/bin/env python")
  ∧ trim_is_empty (lit "#!/usr/bin/env python") = false
  ∧ is_import (lit "#!/usr/bin/env python") = false
  ∧ scan_imports (split_lines shebang_script) 0 [] 0 = ([lit "import os"], 1)
  ∧ (scan_imports (split_lines shebang_script) 0 [] 0).1 ≠ [].
Proof. vm_compute. split_and!; (reflexivity || discriminate). Qed.



Lemma scan_imports_all imports tail i importLines importEnd :
  Forall (λ line, is_import line = true) imports →
  scan_imports (imports ++ tail) i importLines importEnd
    = scan_imports tail (i + js_length imports) (importLines ++ imports)
        (match imports with
         | [] => importEnd
         | _ :: _ => i + js_length imports - 1
         end).
Proof.
  revert i importLines importEnd.
  induction imports as [|line imports IH]; intros i importLines importEnd Himp.
  - cbn [app]. change (js_length []) with 0. by rewrite Z.add_0_r, app_nil_r.
  - apply Forall_cons in Himp as [Hline Himp]. cbn [app scan_imports].
    rewrite Hline, IH by done. rewrite js_length_cons, <- app_assoc.
    cbn [app]. f_equal; [lia|]. destruct imports; [|rewrite js_length_cons];
      unfold js_length; cbn [length]; lia.
Qed.

Lemma scan_imports_stop line rest i importLines importEnd :
  importLines ≠ [] → is_import line = false → trim_is_empty line = false →
  scan_imports (line :: rest) i importLines importEnd = (importLines, importEnd).
Proof.
  intros Hne Himp Hblank. cbn [scan_imports]. rewrite Himp, Hblank.
  destruct importLines; [done|]. rewrite js_length_cons.
  pose proof (js_length_nonneg importLines).
  rewrite andb_false_r. by destruct (Z.gtb_spec (1 + js_length importLines) 0); [|lia].
Qed.

(** C7 (example scenario, amended): for a file of 50 lines whose first five
    lines are imports, with [def run():] on line 30 and the guard on line 48
    as the last entry signature, longer than 800 characters and whose import
    block and window fit in 800, the output is the five import lines, the
    elision marker, and lines 28 to 50: the 20 lines before the guard on
    line 48 through the end of the file. *)
Theorem example_scenario (lines : list (list N)) :
  length lines = 50%nat →
  Forall (λ line, NL ∉ line) lines →
  Forall (λ line, is_import line = true) (take 5 lines) →
  (∀ line, lines !! 5%nat = Some line →
           is_import line = false ∧ trim_is_empty line = false) →
  lines !! 29%nat = Some (lit "def run():") →
  lines !! 47%nat = Some MAIN_GUARD →
  Forall (λ line, is_entry line = false) (drop 48 lines) →
  800 < js_length (join [NL] lines) →
  js_length (join [NL] (take 5 lines)) < 400 →
  js_length (join [NL] (take 5 lines)) + js_length (join [NL] (drop 27 lines))
    ≤ 800 →
  smartTruncatePython (join [NL] lines) 800
    = join [NL] [join [NL] (take 5 lines); MARKER; join [NL] (drop 27 lines)].
Proof.
  intros Hlen Hnl Himports Hsixth _ Hguard Hafter Hlong Hhalf Hfit.
  assert (join [NL] lines ≠ []) as Hne.
  { intros Hnil. rewrite Hnil in Hlong. unfold js_length in Hlong.
    cbn [length] in Hlong. lia. }
  assert (lines ≠ []) as Hlines by (intros ->; done).
  rewrite smartTruncatePython_long by done. cbv zeta.
  rewrite split_lines_join by done.
  destruct (lines !! 5%nat) as [sixth|] eqn:H5;
    [|apply lookup_ge_None in H5; lia].
  destruct (Hsixth sixth eq_refl) as [Hnot_import Hnot_blank].
  assert (scan_imports lines 0 [] 0 = (take 5 lines, 4)) as ->.
  { rewrite <- (take_drop_middle lines 5 sixth) at 1 by done.
    rewrite scan_imports_all by done. cbn [app].
    assert (js_length (take 5 lines) = 5) as Hfive
      by (unfold js_length; rewrite length_take; lia).
    rewrite scan_imports_stop; [|by destruct lines|done..].
    rewrite Hfive. by destruct lines. }
  assert (entry_start lines = 47) as ->.
  { rewrite <- (take_drop_middle lines 47 MAIN_GUARD) by done.
    rewrite entry_start_last; [|by vm_compute|done].
    unfold js_length. rewrite length_take. lia. }
  cbn [fst snd negb Z.eqb]. unfold import_block.
  change (800 / 2) with 400.
  destruct (Z.ltb_spec (js_length (join [NL] (take 5 lines))) 400); [|lia].
  unfold entry_block, context_start, entry_section.
  change (Z.max (47 - 20) (4 + 1)) with 27.
  rewrite slice_from_drop by lia. change (Z.to_nat 27) with 27%nat.
  destruct (Z.leb_spec (js_length (join [NL] (take 5 lines))
                        + js_length (join [NL] (drop 27 lines))) 800); [|lia].
  done.
Qed.

Lemma example_scenario_witness :
  smartTruncatePython (join [NL] scenario_lines) 800
    = join [NL] [join [NL] (take 5 scenario_lines); MARKER;
                 join [NL] (drop 27 scenario_lines)].
Proof.
  apply example_scenario.
  - vm_compute. reflexivity.
  - by_decide.
  - by_decide.
  - intros line [= <-]. vm_compute. split; reflexivity.
  - vm_compute. reflexivity.
  - vm_compute. reflexivity.
  - by_decide.
  - vm_compute. reflexivity.
  - vm_compute. reflexivity.
  - vm_compute. discriminate.
Defined.

(** C7 as stated fails: on this file of 50 lines (five imports, [def run():]
    on line 30, the guard on line 48, budget 800) the output holds none of
    lines 10 to 27; the window starts at line 28. *)
Lemma example_scenario_counterexample :
  length scenario_lines = 50%nat
  ∧ split_lines scenario_file = scenario_lines
  ∧ import_preamble scenario_lines = take 5 scenario_lines
  ∧ scenario_lines !! 29%nat = Some (lit "def run():")
  ∧ scenario_lines !! 47%nat = Some MAIN_GUARD
  ∧ 800 < js_length scenario_file
  ∧ Forall (λ line, includes (smartTruncatePython scenario_file 800) line = false)
      (take 18 (drop 9 scenario_lines)).
Proof.
  split_and!; try (vm_compute; reflexivity). by_decide.
Qed.

(** ** Prose extraction: the keep rule *)

Lemma starts_with_spec s p : starts_with s p = true ↔ ∃ post, s = p ++ post.
Proof.
  revert s. induction p as [|a p IH]; intros s; cbn.
  - split; [by exists s | done].
  - destruct s as [|b s]; [split; [done | by intros [? ?]]|].
    rewrite andb_true_iff, N.eqb_eq, IH. split.
    + intros [-> [post ->]]. by exists post.
    + intros [post [= -> ->]]. eauto.
Qed.

Lemma includes_spec s sub : includes s sub = true ↔ occurs_in sub s.
Proof.
  unfold occurs_in. induction s as [|c s IH]; cbn [includes].
  - rewrite orb_false_r, starts_with_spec. split.
    + intros [post ->]. by exists [], post.
    + intros [pre [post H]]. destruct pre; [by exists post|done].
  - rewrite orb_true_iff, starts_with_spec, IH. split.
    + intros [[post ->]|[pre [post ->]]]; [by exists [], post|].
      by exists (c :: pre), post.
    + intros [[|c' pre] [post H]]; [left; by exists post|].
      injection H as -> ->. right. by exists pre, post.
Qed.

(** C9 (prose keep rule, amended): with budget left, a candidate match
    that occurs in the introduction is skipped; any other one is cut to the
    remaining budget, and the cut fragment is kept, with the budget
    decremented by its length, exactly when it is longer than 100
    characters; a fragment of 100 characters or fewer is discarded. *)
Theorem prose_keep_rule (intro mt : list N) (rest extracted : list (list N))
    (remainingBudget : Z) :
  0 < remainingBudget →
  let truncated := take (Z.to_nat remainingBudget) mt in
  (occurs_in mt intro →
     keep_matches intro (mt :: rest) (extracted, remainingBudget)
     = keep_matches intro rest (extracted, remainingBudget))
  ∧ (¬ occurs_in mt intro → js_length truncated ≤ 100 →
     keep_matches intro (mt :: rest) (extracted, remainingBudget)
     = keep_matches intro rest (extracted, remainingBudget))
  ∧ (¬ occurs_in mt intro → 100 < js_length truncated →
     keep_matches intro (mt :: rest) (extracted, remainingBudget)
     = keep_matches intro rest
         (extracted ++ [truncated], remainingBudget - js_length truncated)).
Proof.
  intros Hpos truncated. cbn [keep_matches].
  destruct (Z.leb_spec remainingBudget 0); [lia|].
  rewrite slice_prefix by lia. fold truncated.
  destruct (includes intro mt) eqn:Hinc.
  - apply includes_spec in Hinc. done.
  - assert (¬ occurs_in mt intro) as Hout.
    { intros Hin. apply includes_spec in Hin. congruence. }
    destruct (Z.gtb_spec (js_length truncated) 100);
      (split; [done|]); split; intros; (done || lia).
Qed.

Lemma prose_keep_rule_witness :
  let truncated := take (Z.to_nat 150) BLOCK in
  (occurs_in BLOCK (lit "# Title") →
     keep_matches (lit "# Title") [BLOCK] ([lit "# Title"], 150)
     = keep_matches (lit "# Title") [] ([lit "# Title"], 150))
  ∧ (¬ occurs_in BLOCK (lit "# Title") → js_length truncated ≤ 100 →
     keep_matches (lit "# Title") [BLOCK] ([lit "# Title"], 150)
     = keep_matches (lit "# Title") [] ([lit "# Title"], 150))
  ∧ (¬ occurs_in BLOCK (lit "# Title") → 100 < js_length truncated →
     keep_matches (lit "# Title") [BLOCK] ([lit "# Title"], 150)
     = keep_matches (lit "# Title") []
         ([lit "# Title"] ++ [truncated], 150 - js_length truncated)).
Proof. apply prose_keep_rule. lia. Defined.

(** C9 as stated fails: with 100 characters of budget left after the
    introduction, the fenced block of this readme is cut to exactly 100
    characters and discarded, so the output is the introduction alone. *)
Lemma prose_keep_rule_counterexample :
  match_all fenced_block one_block_readme = [LONG_BLOCK]
  ∧ includes (slice one_block_readme 0 500) LONG_BLOCK = false
  ∧ js_length (slice LONG_BLOCK 0 100) = 100
  ∧ keep_matches (slice one_block_readme 0 500) [LONG_BLOCK]
      ([slice one_block_readme 0 500], 100)
    = ([slice one_block_readme 0 500], 100)
  ∧ smartTruncateReadme one_block_readme 600 = slice one_block_readme 0 500.
Proof. split_and!; vm_compute; reflexivity. Qed.

(** ** Length bounds *)

Lemma sum_lengths_app xs ys :
  sum_lengths (xs ++ ys) = sum_lengths xs + sum_lengths ys.
Proof.
  unfold sum_lengths. induction xs as [|x xs IH]; cbn; [done|]. lia.
Qed.

Lemma sum_lengths_cons x xs : sum_lengths (x :: xs) = js_length x + sum_lengths xs.
Proof. done. Qed.

Lemma js_length_join sep parts :
  js_length (join sep parts)
    = sum_lengths parts + js_length sep * Z.max 0 (js_length parts - 1).
Proof.
  induction parts as [|p parts IH];
    [unfold sum_lengths, js_length; cbn; lia|].
  destruct parts as [|q parts].
  - cbn [join]. rewrite sum_lengths_cons. unfold sum_lengths, js_length.
    cbn. lia.
  - rewrite join_cons_cons, !js_length_app, IH, (sum_lengths_cons p).
    rewrite !js_length_cons. pose proof (js_length_nonneg parts).
    rewrite !Z.max_r by lia. ring.
Qed.

Lemma js_length_README_SEP : js_length README_SEP = 7.
Proof. reflexivity. Qed.

Lemma js_length_MARKER : js_length MARKER = 20.
Proof. reflexivity. Qed.

Lemma keeps_budget_refl st : keeps_budget st st.
Proof. unfold keeps_budget. lia. Qed.

Lemma keeps_budget_trans st1 st2 st3 :
  keeps_budget st1 st2 → keeps_budget st2 st3 → keeps_budget st1 st3.
Proof. unfold keeps_budget. lia. Qed.

Lemma keep_matches_budget intro matches st :
  keeps_budget st (keep_matches intro matches st).
Proof.
  revert st. induction matches as [|mt matches IH]; intros [extracted remaining].
  - apply keeps_budget_refl.
  - cbn [keep_matches].
    destruct (Z.leb_spec remaining 0); [apply keeps_budget_refl|].
    destruct (includes intro mt); [apply IH|].
    destruct (Z.gtb_spec (js_length (slice mt 0 remaining)) 100); [|apply IH].
    eapply keeps_budget_trans; [|apply IH].
    pose proof (js_length_slice_prefix mt remaining).
    unfold keeps_budget. cbn [fst snd].
    rewrite sum_lengths_app, js_length_app, sum_lengths_cons.
    change (sum_lengths []) with 0.
    change (js_length [slice mt 0 remaining]) with 1. lia.
Qed.

Lemma keep_sections_budget content intro sections st :
  keeps_budget st (keep_sections content intro sections st).
Proof.
  revert st. induction sections as [|regex sections IH]; intros st.
  - apply keeps_budget_refl.
  - cbn [keep_sections]. destruct (st.2 <=? 0); [apply keeps_budget_refl|].
    eapply keeps_budget_trans; [apply keep_matches_budget | apply IH].
Qed.

Lemma smartTruncateReadme_bound content maxLen :
  500 ≤ maxLen →
  js_length (smartTruncateReadme content maxLen)
    ≤ maxLen + 7 * ((maxLen - 500) / 101).
Proof.
  intros Hmax. assert (0 ≤ (maxLen - 500) / 101) by (apply Z.div_pos; lia).
  unfold smartTruncateReadme. destruct content as [|c content].
  { cbn [falsy orb]. change (js_length (@nil N)) with 0. lia. }
  cbn [falsy orb]. set (doc := c :: content).
  destruct (Z.leb_spec (js_length doc) maxLen) as [|Hlong]; [lia|].
  assert (js_length (slice doc 0 500) = 500) as Hintro.
  { rewrite js_length_slice_prefix by lia. lia. }
  pose proof (keep_sections_budget doc (slice doc 0 500) prioritySections
                ([slice doc 0 500], maxLen - js_length (slice doc 0 500)))
    as (Hsum & Hpos & Hcount).
  destruct (keep_sections _ _ _ _) as [extracted remaining].
  cbn [fst snd] in *. rewrite Hintro in *.
  rewrite js_length_join, js_length_README_SEP.
  unfold sum_lengths in Hsum at 2. cbn [foldr] in Hsum.
  change (js_length [slice doc 0 500]) with 1 in Hcount.
  assert (js_length extracted - 1 ≤ (maxLen - 500) / 101)
    by (apply Z.div_le_lower_bound; lia).
  lia.
Qed.

Lemma js_length_slice_from_suffix {A} (s : list A) n :
  0 < n → js_length (slice_from s (- n)) ≤ n.
Proof.
  intros Hn. rewrite slice_from_suffix by done. unfold js_length.
  rewrite length_drop. lia.
Qed.

Lemma import_block_cases maxLen importLines :
  (∃ section, import_block maxLen importLines = ([section], js_length section)
              ∧ js_length section < maxLen / 2)
  ∨ import_block maxLen importLines = ([], 0).
Proof.
  unfold import_block.
  destruct (Z.ltb_spec (js_length (join [NL] importLines)) (maxLen / 2));
    [left; eauto | by right].
Qed.

Ltac join_length :=
  rewrite js_length_join; change (js_length [NL]) with 1;
  unfold sum_lengths; cbn [foldr app]; rewrite ?js_length_cons; change (js_length (@nil (list N))) with 0;
  rewrite ?js_length_MARKER.

Lemma entry_block_bound maxLen lines importEnd entryStart importLines :
  500 ≤ maxLen →
  js_length (join [NL] (entry_block maxLen lines importEnd entryStart
                          (import_block maxLen importLines)))
    ≤ maxLen + 22.
Proof.
  intros Hmax. assert (maxLen / 2 ≤ maxLen) by (apply Z.div_le_upper_bound; lia).
  unfold entry_block.
  set (window := entry_section lines (context_start entryStart importEnd)).
  pose proof (js_length_nonneg window).
  destruct (import_block_cases maxLen importLines) as [(section & -> & Hhalf)| ->].
  - pose proof (js_length_nonneg section).
    destruct (Z.leb_spec (js_length section + js_length window) maxLen).
    + destruct (_ >? _); join_length; lia.
    + destruct (Z.gtb_spec (maxLen - js_length section - 50) 0).
      * pose proof (js_length_slice_from_suffix window
                      (maxLen - js_length section - 50)).
        join_length. lia.
      * join_length. lia.
  - destruct (Z.leb_spec (0 + js_length window) maxLen).
    + destruct (_ >? _); join_length; lia.
    + destruct (Z.gtb_spec (maxLen - 0 - 50) 0).
      * pose proof (js_length_slice_from_suffix window (maxLen - 0 - 50)).
        join_length. lia.
      * join_length. lia.
Qed.

Lemma head_tail_block_bound maxLen lines importEnd importLines :
  500 ≤ maxLen →
  js_length (join [NL] (head_tail_block maxLen lines importEnd
                          (import_block maxLen importLines)))
    ≤ maxLen + 23.
Proof.
  intros Hmax. assert (2 * (maxLen / 2) ≤ maxLen) by (apply Z.mul_div_le; lia).
  unfold head_tail_block.
  set (middle := join [NL] (slice_from lines (importEnd + 1))).
  assert (∀ remaining, 2 ≤ remaining →
    js_length (slice middle 0 (Z.quot remaining 2))
    + js_length (slice_from middle (Z.quot (- remaining) 2)) ≤ remaining)
    as Hparts.
  { intros remaining Hr.
    pose proof (Z.mul_quot_le remaining 2 ltac:(lia) ltac:(lia)).
    assert (0 < Z.quot remaining 2) by (apply Z.quot_str_pos; lia).
    rewrite Z.quot_opp_l by lia.
    pose proof (js_length_slice_from_suffix middle (Z.quot remaining 2)).
    rewrite js_length_slice_prefix by lia. lia. }
  destruct (import_block_cases maxLen importLines) as [(section & -> & Hhalf)| ->].
  - pose proof (js_length_nonneg section).
    destruct (Z.leb_spec (js_length middle) (maxLen - js_length section)).
    + join_length. lia.
    + pose proof (Hparts (maxLen - js_length section)). join_length. lia.
  - destruct (Z.leb_spec (js_length middle) (maxLen - 0)).
    + join_length. lia.
    + pose proof (Hparts (maxLen - 0)). join_length. lia.
Qed.

Lemma smartTruncatePython_bound content maxLen :
  500 ≤ maxLen → js_length (smartTruncatePython content maxLen) ≤ maxLen + 23.
Proof.
  intros Hmax. destruct content as [|c content].
  { change (js_length (smartTruncatePython [] maxLen)) with 0. lia. }
  destruct (Z.le_gt_cases (js_length (c :: content)) maxLen) as [Hfit|Hlong].
  - destruct (identity_fits (c :: content) maxLen Hfit) as [_ ->]. lia.
  - rewrite smartTruncatePython_long by (done || lia). cbv zeta.
    destruct (negb _).
    + pose proof (entry_block_bound maxLen (split_lines (c :: content))
                    (scan_imports (split_lines (c :: content)) 0 [] 0).2
                    (entry_start (split_lines (c :: content)))
                    (scan_imports (split_lines (c :: content)) 0 [] 0).1 Hmax).
      lia.
    + by apply head_tail_block_bound.
Qed.

(** ** The slack of the prose extractor grows with the budget *)

Lemma m_hashes_none icase r s k :
  head s ≠ Some 35%N → m icase (Seq hashes r) s k = None.
Proof.
  intros Hhead. cbn [m hashes]. destruct s as [|c s]; [done|].
  cbn [rep_greedy has_room andb]. unfold is_char.
  destruct (N.eqb_spec c 35) as [->|_]; [by destruct Hhead | done].
Qed.

Lemma scan_no_hash keywords s :
  Forall (λ c, c ≠ 35%N) s → match_all (heading_section keywords) s = [].
Proof.
  unfold match_all. cbn [ignoreCase pat heading_section seqs].
  induction s as [|c s IH]; intros Hs; cbn [scan]; unfold match_here.
  - by rewrite m_hashes_none.
  - apply Forall_cons in Hs as [Hc Hs].
    rewrite m_hashes_none by (cbn; congruence). cbn. by apply IH.
Qed.

Lemma scan_skip icase r l s :
  scan icase r (length l) (l ++ s) = scan icase r 0 s.
Proof. induction l as [|c l IH]; [done|]. cbn [length app scan]. apply IH. Qed.

Lemma scan_match icase r c mt s :
  m icase r (c :: mt ++ s) Some = Some s →
  scan icase r 0 (c :: mt ++ s) = (c :: mt) :: scan icase r 0 s.
Proof.
  intros Hm. cbn [scan]. unfold match_here. rewrite Hm.
  cbn [fmap option_fmap option_map length].
  rewrite length_app.
  replace (S (length mt + length s) - length s)%nat with (S (length mt)) by lia.
  cbn [take]. rewrite take_app_length. cbn [length Nat.pred].
  by rewrite scan_skip.
Qed.

Lemma scan_fenced_block s :
  scan false (pat fenced_block) 0 (BLOCK ++ s)
    = BLOCK :: scan false (pat fenced_block) 0 s.
Proof.
  apply (scan_match false (pat fenced_block) 96%N (tail BLOCK) s).
  vm_compute. reflexivity.
Qed.

Lemma scan_fenced_letters n s :
  scan false (pat fenced_block) 0 (replicate n 97%N ++ s)
    = scan false (pat fenced_block) 0 s.
Proof.
  induction n as [|n IH]; [done|]. cbn [replicate app scan].
  unfold match_here.
  replace (m false (pat fenced_block) (97%N :: replicate n 97%N ++ s) Some)
    with (@None (list N)) by (vm_compute; reflexivity).
  apply IH.
Qed.

Lemma scan_fenced_blocks n :
  scan false (pat fenced_block) 0 (concat (replicate n BLOCK))
    = replicate n BLOCK.
Proof.
  induction n as [|n IH]; [done|]. cbn [replicate concat].
  by rewrite scan_fenced_block, IH.
Qed.

Lemma match_all_blocks_readme n :
  match_all fenced_block (blocks_readme n) = replicate n BLOCK.
Proof.
  unfold match_all, blocks_readme. cbn [ignoreCase fenced_block].
  rewrite scan_fenced_letters. apply scan_fenced_blocks.
Qed.

Lemma blocks_readme_no_hash n : Forall (λ c, c ≠ 35%N) (blocks_readme n).
Proof.
  unfold blocks_readme. apply Forall_app. split.
  - apply Forall_replicate. done.
  - induction n as [|n IH]; [constructor|]. cbn [replicate concat].
    apply Forall_app. split; [|done]. by_decide.
Qed.

Lemma js_length_blocks_readme n :
  js_length (blocks_readme n) = 500 + 102 * Z.of_nat n.
Proof.
  unfold blocks_readme. rewrite js_length_app.
  replace (js_length (replicate 500 97%N)) with 500
    by (unfold js_length; by rewrite length_replicate).
  f_equal. induction n as [|n IH]; [done|]. cbn [replicate concat].
  rewrite js_length_app, IH. change (js_length BLOCK) with 102. lia.
Qed.

Lemma keep_blocks intro (j n : nat) extracted :
  includes intro BLOCK = false → (j ≤ n)%nat →
  keep_matches intro (replicate n BLOCK) (extracted, 102 * Z.of_nat j)
    = (extracted ++ replicate j BLOCK, 0).
Proof.
  intros Hinc. revert n extracted.
  induction j as [|j IH]; intros n extracted Hjn.
  - cbn [replicate]. rewrite app_nil_r. by destruct n.
  - destruct n as [|n]; [lia|]. cbn [replicate keep_matches].
    destruct (Z.leb_spec (102 * Z.of_nat (S j)) 0); [lia|]. rewrite Hinc.
    rewrite slice_whole by (change (js_length BLOCK) with 102; lia).
    change (js_length BLOCK >? 100) with true. cbv iota.
    replace (102 * Z.of_nat (S j) - js_length BLOCK) with (102 * Z.of_nat j)
      by (change (js_length BLOCK) with 102; lia).
    rewrite IH by lia. by rewrite <- app_assoc.
Qed.

(** With [k] blocks of budget beyond the introduction, the extractor keeps
    the introduction and [k] whole blocks, each joined by a separator. *)
Lemma smartTruncateReadme_blocks (k : nat) :
  (1 ≤ k)%nat →
  smartTruncateReadme (blocks_readme (S k)) (500 + 102 * Z.of_nat k)
    = join README_SEP (replicate 500 97%N :: replicate k BLOCK).
Proof.
  intros Hk. unfold smartTruncateReadme.
  pose proof (js_length_blocks_readme (S k)) as Hlen.
  destruct (Z.leb_spec (js_length (blocks_readme (S k)))
              (500 + 102 * Z.of_nat k)); [lia|].
  replace (falsy (blocks_readme (S k))) with false by done. cbn [orb].
  assert (slice (blocks_readme (S k)) 0 500 = replicate 500 97%N) as ->.
  { rewrite slice_prefix by lia. unfold blocks_readme.
    by rewrite take_app_length' by by rewrite length_replicate. }
  replace (js_length (replicate 500 97%N)) with 500
    by (unfold js_length; by rewrite length_replicate).
  replace (500 + 102 * Z.of_nat k - 500) with (102 * Z.of_nat k) by lia.
  unfold prioritySections. cbn [keep_sections fst snd].
  destruct (Z.leb_spec (102 * Z.of_nat k) 0); [lia|].
  rewrite !scan_no_hash by apply blocks_readme_no_hash.
  cbn [keep_matches snd].
  destruct (Z.leb_spec (102 * Z.of_nat k) 0); [lia|].
  rewrite match_all_blocks_readme.
  rewrite keep_blocks; [done| |lia].
  vm_compute. reflexivity.
Qed.

Lemma smartTruncateReadme_slack (k : nat) :
  (1 ≤ k)%nat →
  js_length (smartTruncateReadme (blocks_readme (S k)) (500 + 102 * Z.of_nat k))
    = (500 + 102 * Z.of_nat k) + 7 * Z.of_nat k.
Proof.
  intros Hk. rewrite smartTruncateReadme_blocks by done.
  rewrite js_length_join, js_length_README_SEP, sum_lengths_cons.
  rewrite js_length_cons.
  replace (js_length (replicate 500 97%N)) with 500
    by (unfold js_length; by rewrite length_replicate).
  replace (js_length (replicate k BLOCK)) with (Z.of_nat k)
    by (unfold js_length; by rewrite length_replicate).
  replace (sum_lengths (replicate k BLOCK)) with (102 * Z.of_nat k).
  - lia.
  - clear Hk. induction k as [|k IH]; [done|]. cbn [replicate].
    rewrite sum_lengths_cons, <- IH. change (js_length BLOCK) with 102. lia.
Qed.

(** C2 (bound, amended): for [maxLen ≥ 500] the output of the source-code
    extractor is at most 23 characters longer than [maxLen] (one marker and
    three joining newlines), and the output of the prose extractor exceeds
    [maxLen] by at most 7 characters, one separator, per kept fragment, of
    which there are at most [(maxLen - 500) / 101]. *)
Theorem extractor_bound (content : list N) (maxLen : Z) :
  500 ≤ maxLen →
  js_length (smartTruncatePython content maxLen) ≤ maxLen + 23
  ∧ js_length (smartTruncateReadme content maxLen)
      ≤ maxLen + 7 * ((maxLen - 500) / 101).
Proof.
  intros Hmax. split.
  - by apply smartTruncatePython_bound.
  - by apply smartTruncateReadme_bound.
Qed.

Lemma extractor_bound_witness :
  js_length (smartTruncatePython scenario_file 800) ≤ 800 + 23
  ∧ js_length (smartTruncateReadme scenario_file 800)
      ≤ 800 + 7 * ((800 - 500) / 101).
Proof. apply extractor_bound. lia. Defined.

(** C2 as stated fails for the prose extractor: no constant bounds the
    excess over [maxLen].  A readme of [k + 1] fenced blocks with budget
    [500 + 102 * k] yields [k] kept blocks and [7 * k] characters of
    separators beyond [maxLen]. *)
Lemma extractor_bound_counterexample :
  ¬ ∃ slack : Z, ∀ (content : list N) (maxLen : Z),
      500 ≤ maxLen → js_length (smartTruncateReadme content maxLen) ≤ maxLen + slack.
Proof.
  intros [slack Hbound].
  pose (k := S (Z.to_nat slack)).
  pose proof (Hbound (blocks_readme (S k)) (500 + 102 * Z.of_nat k)) as Hk.
  rewrite smartTruncateReadme_slack in Hk by (unfold k; lia).
  unfold k in Hk. lia.
Qed.

(** ** Fallbacks *)


Lemma keep_sections_exhausted content intro sections st :
  st.2 ≤ 0 → keep_sections content intro sections st = st.
Proof.
  intros Hst. destruct sections as [|regex sections]; [done|].
  cbn [keep_sections]. by destruct (Z.leb_spec st.2 0); [|lia].
Qed.







(** * Further properties

    Properties of the same functions beyond the ones above, and of the
    steps around them. *)

(** ** The matcher and the patterns *)

Lemma is_Some_or_else {A} (x y : option A) :
  is_Some (or_else x y) ↔ is_Some x ∨ is_Some y.
Proof.
  destruct x as [a|]; cbn.
  - split; [by left | by intros _].
  - split; [by right | by intros [[? [=]]|?]].
Qed.

Lemma rep_ok_nil p lo hi : rep_ok p lo hi [] ↔ lo = 0%nat.
Proof.
  unfold rep_ok. cbn. split; [lia|]. intros ->. split_and!; [done|lia|intros; lia].
Qed.

Lemma rep_ok_cons p lo hi c xs :
  rep_ok p lo hi (c :: xs)
  ↔ has_room hi && p c = true ∧ rep_ok p (pred lo) (pred <$> hi) xs.
Proof.
  unfold rep_ok. rewrite Forall_cons, andb_true_iff. cbn [length]. split.
  - intros ((Hc & Hxs) & Hlo & Hhi). split_and!; [|done..|lia|].
    + destruct hi as [[|n]|]; [|done..]. specialize (Hhi _ eq_refl). lia.
    + intros n Hn. destruct hi as [h|]; [|done]. injection Hn as <-.
      specialize (Hhi _ eq_refl). lia.
  - intros ((Hroom & Hc) & Hxs & Hlo & Hhi). split_and!; [done..|lia|].
    intros n ->. destruct n as [|n]; [done|].
    specialize (Hhi n eq_refl). lia.
Qed.

Lemma rep_greedy_spec p lo hi s k :
  is_Some (rep_greedy p lo hi s k)
  ↔ ∃ xs rest, s = xs ++ rest ∧ rep_ok p lo hi xs ∧ is_Some (k rest).
Proof.
  revert lo hi. induction s as [|c s IH]; intros lo hi.
  - cbn [rep_greedy]. split.
    + destruct lo; [|by intros [? [=]]]. intros Hk. exists [], [].
      by rewrite rep_ok_nil.
    + intros (xs & rest & Hs & Hok & Hk). symmetry in Hs.
      apply app_eq_nil in Hs as [-> ->]. apply rep_ok_nil in Hok as ->. done.
  - cbn [rep_greedy].
    assert (is_Some (match lo with O => k (c :: s) | S _ => None end)
            ↔ ∃ rest, c :: s = [] ++ rest ∧ rep_ok p lo hi [] ∧ is_Some (k rest))
      as Hstop.
    { split.
      - destruct lo; [|by intros [? [=]]]. intros Hk. exists (c :: s).
        by rewrite rep_ok_nil.
      - intros (rest & Hs & Hok & Hk). cbn in Hs. subst rest.
        by apply rep_ok_nil in Hok as ->. }
    destruct (has_room hi && p c) eqn:Hc.
    + rewrite is_Some_or_else, IH, Hstop. split.
      * intros [(xs & rest & -> & Hok & Hk)|(rest & Hs & Hok & Hk)].
        -- exists (c :: xs), rest. by rewrite rep_ok_cons.
        -- by exists [], rest.
      * intros ([|c' xs] & rest & Hs & Hok & Hk); [right; by exists rest|].
        injection Hs as <- ->. left. apply rep_ok_cons in Hok as [_ Hok].
        by exists xs, rest.
    + rewrite Hstop. split.
      * intros (rest & Hs & Hok & Hk). by exists [], rest.
      * intros ([|c' xs] & rest & Hs & Hok & Hk); [by exists rest|].
        injection Hs as <- ->. apply rep_ok_cons in Hok as [Hc' _]. congruence.
Qed.

Lemma rep_lazy_spec p lo hi s k :
  is_Some (rep_lazy p lo hi s k)
  ↔ ∃ xs rest, s = xs ++ rest ∧ rep_ok p lo hi xs ∧ is_Some (k rest).
Proof.
  revert lo hi. induction s as [|c s IH]; intros lo hi.
  - cbn [rep_lazy]. split.
    + destruct lo; [|by intros [? [=]]]. rewrite is_Some_or_else.
      intros [Hk|[? [=]]]. exists [], []. by rewrite rep_ok_nil.
    + intros (xs & rest & Hs & Hok & Hk). symmetry in Hs.
      apply app_eq_nil in Hs as [-> ->]. apply rep_ok_nil in Hok as ->.
      rewrite is_Some_or_else. by left.
  - cbn [rep_lazy].
    assert (is_Some (if has_room hi && p c
                     then rep_lazy p (pred lo) (pred <$> hi) s k else None)
            ↔ ∃ xs rest, c :: s = (c :: xs) ++ rest
                         ∧ rep_ok p lo hi (c :: xs) ∧ is_Some (k rest))
      as Hmore.
    { destruct (has_room hi && p c) eqn:Hc.
      - rewrite IH. split.
        + intros (xs & rest & -> & Hok & Hk). exists xs, rest.
          by rewrite rep_ok_cons.
        + intros (xs & rest & [= ->] & Hok & Hk).
          apply rep_ok_cons in Hok as [_ Hok]. by exists xs, rest.
      - split; [by intros [? [=]]|].
        intros (xs & rest & _ & Hok & _).
        apply rep_ok_cons in Hok as [Hc' _]. congruence. }
    destruct lo as [|lo].
    + rewrite is_Some_or_else, Hmore. split.
      * intros [Hk|(xs & rest & Hs & Hok & Hk)].
        -- exists [], (c :: s). by rewrite rep_ok_nil.
        -- by exists (c :: xs), rest.
      * intros ([|c' xs] & rest & Hs & Hok & Hk).
        -- left. cbn in Hs. by subst.
        -- right. injection Hs as <- ->. by exists xs, rest.
    + rewrite Hmore. split.
      * intros (xs & rest & Hs & Hok & Hk). by exists (c :: xs), rest.
      * intros ([|c' xs] & rest & Hs & Hok & Hk).
        -- by apply rep_ok_nil in Hok.
        -- injection Hs as <- ->. by exists xs, rest.
Qed.

Lemma m_spec icase r s k :
  is_Some (m icase r s k)
  ↔ ∃ x rest, s = x ++ rest ∧ matches icase r x rest ∧ is_Some (k rest).
Proof.
  revert s k. induction r as [c|p|greedy p lo hi|r1 IH1 r2 IH2|r1 IH1 r2 IH2|r IH|];
    intros s k; cbn [m].
  - destruct s as [|x s].
    + split; [by intros [? [=]]|]. intros (y & rest & Hs & Hm & _).
      inversion Hm; subst. done.
    + destruct (char_eq icase c x) eqn:Hc.
      * split.
        -- intros Hk. exists [x], s. split_and!; [done| |done]. by constructor.
        -- intros (y & rest & Hs & Hm & Hk). inversion Hm; subst.
           by injection Hs as -> ->.
      * split; [by intros [? [=]]|]. intros (y & rest & Hs & Hm & _).
        inversion Hm; subst. injection Hs as -> ->. congruence.
  - destruct s as [|x s].
    + split; [by intros [? [=]]|]. intros (y & rest & Hs & Hm & _).
      inversion Hm; subst. done.
    + destruct (p x) eqn:Hc.
      * split.
        -- intros Hk. exists [x], s. split_and!; [done| |done]. by constructor.
        -- intros (y & rest & Hs & Hm & Hk). inversion Hm; subst.
           by injection Hs as -> ->.
      * split; [by intros [? [=]]|]. intros (y & rest & Hs & Hm & _).
        inversion Hm; subst. injection Hs as -> ->. congruence.
  - assert ((∃ xs rest, s = xs ++ rest ∧ rep_ok p lo hi xs ∧ is_Some (k rest))
            ↔ ∃ x rest, s = x ++ rest
                ∧ matches icase (Rep greedy p lo hi) x rest ∧ is_Some (k rest))
      as <-.
    { split; intros (xs & rest & Hs & Hm & Hk); exists xs, rest;
        (split; [done|]); (split; [|done]).
      - destruct Hm as (? & ? & ?). by constructor.
      - by inversion Hm; subst. }
    destruct greedy; [apply rep_greedy_spec | apply rep_lazy_spec].
  - rewrite IH1. split.
    + intros (x1 & rest1 & -> & Hm1 & Hk). apply IH2 in Hk
        as (x2 & rest & -> & Hm2 & Hk).
      exists (x1 ++ x2), rest. rewrite <- app_assoc. split_and!; [done| |done].
      by constructor.
    + intros (x & rest & -> & Hm & Hk). inversion Hm; subst.
      exists x1, (x2 ++ rest). rewrite <- app_assoc. split_and!; [done..|].
      apply IH2. by exists x2, rest.
  - rewrite is_Some_or_else, IH1, IH2. split.
    + intros [(x & rest & -> & Hm & Hk)|(x & rest & -> & Hm & Hk)];
        exists x, rest; (split_and!; [done| |done]);
        [by apply matches_Alt_l | by apply matches_Alt_r].
    + intros (x & rest & -> & Hm & Hk). inversion Hm; subst;
        [left | right]; by exists x, rest.
  - destruct (m icase r s Some) as [r'|] eqn:Hr.
    + assert (is_Some (m icase r s Some)) as Hsome by by rewrite Hr.
      apply IH in Hsome as (x & rest & -> & Hm & _). split.
      * intros Hk. exists [], (x ++ rest). split_and!; [done| |done].
        by constructor.
      * intros (y & rest' & Hs & Hm' & Hk). inversion Hm'; subst.
        cbn in Hs. by rewrite Hs.
    + split; [by intros [? [=]]|].
      intros (y & rest' & Hs & Hm' & Hk). inversion Hm'; subst. cbn in Hr.
      assert (is_Some (m icase r (x ++ rest) Some)) as [? Hs']; [|congruence].
      apply IH. by exists x, rest.
  - destruct s as [|x s].
    + split.
      * intros Hk. exists [], []. split_and!; [done|constructor|done].
      * intros (y & rest & Hs & Hm & Hk). by inversion Hm; subst.
    + split; [by intros [? [=]]|].
      intros (y & rest & Hs & Hm & Hk). by inversion Hm; subst.
Qed.

Lemma test_anchored_spec p s :
  test_anchored p s = true
  ↔ ∃ x rest, s = x ++ rest ∧ matches (ignoreCase p) (pat p) x rest.
Proof.
  unfold test_anchored. rewrite bool_decide_eq_true, m_spec. split.
  - intros (x & rest & -> & Hm & _). eauto.
  - intros (x & rest & -> & Hm). exists x, rest. eauto.
Qed.

Lemma search_spec icase r s :
  search icase r s = true
  ↔ ∃ pre x rest, s = pre ++ x ++ rest ∧ matches icase r x rest.
Proof.
  induction s as [|c s IH]; cbn [search].
  - destruct (m icase r [] Some) as [r'|] eqn:Hm.
    + assert (is_Some (m icase r [] Some)) as Hs by by rewrite Hm.
      apply m_spec in Hs as (x & rest & Hs & Hx & _).
      split; [|done]. intros _. by exists [], x, rest.
    + split; [done|]. intros (pre & x & rest & Hs & Hx).
      destruct pre; [|done]. cbn in Hs.
      assert (is_Some (m icase r [] Some)) as [? ?]; [|congruence].
      apply m_spec. exists x, rest. eauto.
  - destruct (m icase r (c :: s) Some) as [r'|] eqn:Hm.
    + assert (is_Some (m icase r (c :: s) Some)) as Hs by by rewrite Hm.
      apply m_spec in Hs as (x & rest & Hs & Hx & _).
      split; [|done]. intros _. by exists [], x, rest.
    + rewrite IH. split.
      * intros (pre & x & rest & -> & Hx). by exists (c :: pre), x, rest.
      * intros ([|c' pre] & x & rest & Hs & Hx).
        -- cbn in Hs.
           assert (is_Some (m icase r (c :: s) Some)) as [? ?]; [|congruence].
           apply m_spec. exists x, rest. eauto.
        -- injection Hs as <- ->. by exists pre, x, rest.
Qed.

Lemma matches_Lit_iff icase c x rest :
  matches icase (Lit c) x rest ↔ ∃ y, x = [y] ∧ char_eq icase c y = true.
Proof.
  split.
  - inversion 1; subst. eauto.
  - intros (y & -> & ?). by constructor.
Qed.

Lemma matches_chars cs x rest : matches false (chars cs) x rest ↔ x = cs.
Proof.
  unfold chars. revert x rest. induction cs as [|c cs IH]; intros x rest.
  - cbn. split.
    + inversion 1 as [| |? ? ? ? ? ? Hall| | | | |]; subst.
      destruct x as [|y x]; [done|]. by apply Forall_cons in Hall as [? _].
    + intros ->. constructor; [done|cbn; lia|intros; cbn; lia].
  - destruct cs as [|c' cs].
    + cbn [fmap list_fmap seqs]. rewrite matches_Lit_iff. cbn [char_eq]. split.
      * intros (y & -> & <-%N.eqb_eq). done.
      * intros ->. exists c. by rewrite N.eqb_refl.
    + change (seqs (Lit <$> c :: c' :: cs))
        with (Seq (Lit c) (seqs (Lit <$> c' :: cs))).
      split.
      * inversion 1 as [| | |? ? ? ? ? H1 H2| | | |]; subst.
        apply IH in H2 as ->.
        apply matches_Lit_iff in H1 as (y & -> & <-%N.eqb_eq). done.
      * intros ->. apply (matches_Seq _ _ _ [c]).
        -- constructor. cbn. apply N.eqb_refl.
        -- by apply IH.
Qed.

Lemma matches_word w x rest : matches false (word w) x rest ↔ x = lit w.
Proof. apply matches_chars. Qed.

Lemma matches_Seq_iff icase r1 r2 x rest :
  matches icase (Seq r1 r2) x rest
  ↔ ∃ x1 x2, x = x1 ++ x2 ∧ matches icase r1 x1 (x2 ++ rest)
             ∧ matches icase r2 x2 rest.
Proof.
  split.
  - inversion 1; subst. eauto.
  - intros (x1 & x2 & -> & H1 & H2). by constructor.
Qed.

Lemma matches_Alt_iff icase r1 r2 x rest :
  matches icase (Alt r1 r2) x rest
  ↔ matches icase r1 x rest ∨ matches icase r2 x rest.
Proof.
  split.
  - inversion 1; subst; eauto.
  - intros [?|?]; [by apply matches_Alt_l | by apply matches_Alt_r].
Qed.

Lemma matches_Rep_iff icase greedy p lo hi x rest :
  matches icase (Rep greedy p lo hi) x rest ↔ rep_ok p lo hi x.
Proof.
  split.
  - by inversion 1; subst.
  - intros (? & ? & ?). by constructor.
Qed.

Lemma matches_Cls_iff icase p x rest :
  matches icase (Cls p) x rest ↔ ∃ c, x = [c] ∧ p c = true.
Proof.
  split.
  - inversion 1; subst. eauto.
  - intros (c & -> & ?). by constructor.
Qed.

Lemma rep_ok_star p x : rep_ok p 0 None x ↔ Forall (λ c, p c = true) x.
Proof. unfold rep_ok. split; [by intros (? & _)|]. intros ?. split_and!; [done|lia|done]. Qed.

Lemma rep_ok_plus p x :
  rep_ok p 1 None x ↔ x ≠ [] ∧ Forall (λ c, p c = true) x.
Proof.
  unfold rep_ok. split.
  - intros (? & Hlen & _). split; [|done]. intros ->. cbn in Hlen. lia.
  - intros (Hne & ?). split_and!; [done| |done]. destruct x; [done|cbn; lia].
Qed.

(** X16 (import lines): the import pattern accepts a line exactly when it
    begins with [import] and a space, or is [from], a space, a non-empty
    module part without line terminator, then [import] between two spaces,
    then anything. *)
Theorem is_import_spec (line : list N) :
  is_import line = true
  ↔ lit "import " `prefix_of` line
    ∨ ∃ modname rest, line = lit "from " ++ modname ++ lit " import " ++ rest
                      ∧ modname ≠ [] ∧ Forall (λ c, dot c = true) modname.
Proof.
  unfold is_import. rewrite test_anchored_spec.
  change (ignoreCase importPattern) with false.
  change (pat importPattern)
    with (Alt (word "import ")
              (Seq (word "from ") (Seq (plus dot) (word " import ")))).
  split.
  - intros (x & rest & -> & Hm). apply matches_Alt_iff in Hm as [Hm|Hm].
    + apply matches_word in Hm as ->. left. by exists rest.
    + apply matches_Seq_iff in Hm as (x1 & x' & -> & H1 & Hm).
      apply matches_Seq_iff in Hm as (x2 & x3 & -> & H2 & H3).
      apply matches_word in H1 as ->. apply matches_word in H3 as ->.
      apply matches_Rep_iff, rep_ok_plus in H2 as [Hne Hdot].
      right. exists x2, rest. by rewrite <- !app_assoc.
  - intros [[rest ->]|(modname & rest & -> & Hne & Hdot)].
    + exists (lit "import "), rest. split; [done|].
      apply matches_Alt_l. by apply matches_word.
    + exists (lit "from " ++ modname ++ lit " import "), rest.
      split; [by rewrite <- !app_assoc|].
      apply matches_Alt_r, matches_Seq_iff.
      exists (lit "from "), (modname ++ lit " import ").
      split_and!; [done|by apply matches_word|].
      apply matches_Seq_iff. exists modname, (lit " import ").
      split_and!; [done| |by apply matches_word].
      by apply matches_Rep_iff, rep_ok_plus.
Qed.

Lemma test_spec p s :
  test p s = true
  ↔ ∃ pre x rest, s = pre ++ x ++ rest ∧ matches (ignoreCase p) (pat p) x rest.
Proof. apply search_spec. Qed.

Lemma test_word_spec w s :
  test (Pattern (word w) false) s = true ↔ occurs_in (lit w) s.
Proof.
  rewrite test_spec. cbn [ignoreCase pat]. unfold occurs_in. split.
  - intros (pre & x & rest & -> & ->%matches_word). eauto.
  - intros (pre & post & ->). exists pre, (lit w), post.
    split; [done|]. by apply matches_word.
Qed.

Lemma test_guard_spec line :
  test (Pattern (seqs [word "if"; plus is_space; word "__name__"; star is_space;
                       word "=="; star is_space; Cls is_quote; word "__main__";
                       Cls is_quote]) false) line = true
  ↔ guard_line line.
Proof.
  rewrite test_spec. cbn [ignoreCase pat seqs]. unfold guard_line. split.
  - intros (pre & x & rest & -> & Hm).
    apply matches_Seq_iff in Hm as (x1 & ? & -> & ->%matches_word & Hm).
    apply matches_Seq_iff in Hm as (ws1 & ? & -> & [Hne1 Hws1]%matches_Rep_iff%rep_ok_plus & Hm).
    apply matches_Seq_iff in Hm as (x2 & ? & -> & ->%matches_word & Hm).
    apply matches_Seq_iff in Hm as (ws2 & ? & -> & Hws2%matches_Rep_iff%rep_ok_star & Hm).
    apply matches_Seq_iff in Hm as (x3 & ? & -> & ->%matches_word & Hm).
    apply matches_Seq_iff in Hm as (ws3 & ? & -> & Hws3%matches_Rep_iff%rep_ok_star & Hm).
    apply matches_Seq_iff in Hm as (? & ? & -> & (q1 & -> & Hq1)%matches_Cls_iff & Hm).
    apply matches_Seq_iff in Hm as (x4 & ? & -> & ->%matches_word & Hm).
    apply matches_Cls_iff in Hm as (q2 & -> & Hq2).
    exists pre, ws1, ws2, ws3, q1, q2, rest.
    split_and!; [|done..]. by rewrite <- !app_assoc.
  - intros (pre & ws1 & ws2 & ws3 & q1 & q2 & post & -> & Hne & H1 & H2 & H3 & Hq1 & Hq2).
    exists pre, (lit "if" ++ ws1 ++ lit "__name__" ++ ws2 ++ lit "=="
                 ++ ws3 ++ [q1] ++ lit "__main__" ++ [q2]), post.
    split; [by rewrite <- !app_assoc|].
    apply matches_Seq_iff. eexists _, _. split_and!; [done|by apply matches_word|].
    apply matches_Seq_iff. eexists _, _. split_and!; [done|by apply matches_Rep_iff, rep_ok_plus|].
    apply matches_Seq_iff. eexists _, _. split_and!; [done|by apply matches_word|].
    apply matches_Seq_iff. eexists _, _. split_and!; [done|by apply matches_Rep_iff, rep_ok_star|].
    apply matches_Seq_iff. eexists _, _. split_and!; [done|by apply matches_word|].
    apply matches_Seq_iff. eexists _, _. split_and!; [done|by apply matches_Rep_iff, rep_ok_star|].
    apply matches_Seq_iff. eexists _, _. split_and!; [done|apply matches_Cls_iff; eauto|].
    apply matches_Seq_iff. eexists _, _. split_and!; [done|by apply matches_word|].
    apply matches_Cls_iff; eauto.
Qed.

Lemma test_def_spec line :
  test (Pattern (seqs [word "def"; plus is_space;
                       alts [word "main"; word "run"; word "cli"; word "app";
                             word "start"];
                       star is_space; Lit 40%N]) false) line = true
  ↔ def_line line.
Proof.
  rewrite test_spec. cbn [ignoreCase pat seqs alts]. unfold def_line. split.
  - intros (pre & x & rest & -> & Hm).
    apply matches_Seq_iff in Hm as (x1 & ? & -> & ->%matches_word & Hm).
    apply matches_Seq_iff in Hm as (ws1 & ? & -> & [Hne1 Hws1]%matches_Rep_iff%rep_ok_plus & Hm).
    apply matches_Seq_iff in Hm as (name & ? & -> & Hname & Hm).
    apply matches_Seq_iff in Hm as (ws2 & ? & -> & Hws2%matches_Rep_iff%rep_ok_star & Hm).
    apply matches_Lit_iff in Hm as (y & -> & <-%N.eqb_eq).
    exists pre, ws1, name, ws2, rest.
    split_and!; [by rewrite <- !app_assoc|done..|].
    rewrite !matches_Alt_iff, !matches_word in Hname.
    rewrite !elem_of_cons, elem_of_nil. tauto.
  - intros (pre & ws1 & name & ws2 & post & -> & Hne & H1 & H2 & Hname).
    exists pre, (lit "def" ++ ws1 ++ name ++ ws2 ++ lit "("), post.
    split; [by rewrite <- !app_assoc|].
    apply matches_Seq_iff. eexists _, _. split_and!; [done|by apply matches_word|].
    apply matches_Seq_iff. eexists _, _. split_and!; [done|by apply matches_Rep_iff, rep_ok_plus|].
    apply matches_Seq_iff. eexists _, _. split_and!; [done| |].
    + rewrite !matches_Alt_iff, !matches_word.
      rewrite !elem_of_cons, elem_of_nil in Hname. tauto.
    + apply matches_Seq_iff. eexists _, _.
      split_and!; [done|by apply matches_Rep_iff, rep_ok_star|].
      apply matches_Lit_iff. by exists 40%N.
Qed.

Lemma test_click_spec line :
  test (Pattern (seqs [word "@click."; alts [word "command"; word "group"]])
          false) line = true
  ↔ occurs_in (lit "@click.command") line ∨ occurs_in (lit "@click.group") line.
Proof.
  rewrite test_spec. cbn [ignoreCase pat seqs alts]. unfold occurs_in. split.
  - intros (pre & x & rest & -> & Hm).
    apply matches_Seq_iff in Hm as (x1 & ? & -> & ->%matches_word & Hm).
    apply matches_Alt_iff in Hm as [->%matches_word| ->%matches_word];
      [left | right]; by exists pre, rest.
  - intros [(pre & post & ->)|(pre & post & ->)].
    + exists pre, (lit "@click.command"), post. split; [done|].
      apply (matches_Seq _ _ _ (lit "@click.") (lit "command"));
        [by apply matches_word|]. apply matches_Alt_l. by apply matches_word.
    + exists pre, (lit "@click.group"), post. split; [done|].
      apply (matches_Seq _ _ _ (lit "@click.") (lit "group"));
        [by apply matches_word|]. apply matches_Alt_r. by apply matches_word.
Qed.

(** X17 (entry signatures): a line is taken as an entry point exactly when
    it holds the executable guard, the definition of one of the five entry
    functions, a call of [.add_command(], one of the two [click] decorators,
    or [argparse.ArgumentParser]; the texts may stand anywhere in the line. *)
Theorem is_entry_spec (line : list N) :
  is_entry line = true
  ↔ guard_line line ∨ def_line line
    ∨ occurs_in (lit ".add_command(") line
    ∨ occurs_in (lit "@click.command") line
    ∨ occurs_in (lit "@click.group") line
    ∨ occurs_in (lit "argparse.ArgumentParser") line.
Proof.
  unfold is_entry, entryPatterns. cbn [existsb].
  rewrite !orb_true_iff, test_guard_spec, test_def_spec, !test_word_spec,
    test_click_spec.
  split; [|tauto]. intros [?|[?|[?|[?|[?|?]]]]]; try tauto. discriminate.
Qed.

(** ** More on the allocator *)

Lemma insert_by_length_sorted x files :
  Sorted no_longer files → Sorted no_longer (insert_by_length x files).
Proof.
  induction 1 as [|y files Hs IH Hhd]; cbn [insert_by_length].
  - by repeat constructor.
  - destruct (Z.gtb_spec (js_length x.2 - js_length y.2) 0).
    + constructor; [done|]. destruct Hhd as [|z files Hz]; cbn [insert_by_length].
      * constructor. unfold no_longer. lia.
      * destruct (_ >? 0); constructor; [done|]. unfold no_longer. lia.
    + constructor; [by constructor|]. constructor. unfold no_longer. lia.
Qed.

Lemma sort_by_length_sorted files : Sorted no_longer (sort_by_length files).
Proof.
  induction files as [|x files IH]; [constructor|].
  cbn. by apply insert_by_length_sorted.
Qed.

Lemma filter_insert_by_length L x files :
  filter (of_length L) (insert_by_length x files)
    = filter (of_length L) (x :: files).
Proof.
  induction files as [|y files IH]; [done|]. cbn [insert_by_length].
  destruct (Z.gtb_spec (js_length x.2 - js_length y.2) 0) as [Hgt|]; [|done].
  rewrite (filter_cons _ y), IH, !(filter_cons _ x), (filter_cons _ y).
  unfold of_length in *. repeat case_decide; (done || lia).
Qed.

Lemma sort_by_length_stable L files :
  filter (of_length L) (sort_by_length files) = filter (of_length L) files.
Proof.
  induction files as [|x files IH]; [done|]. cbn [sort_by_length foldr].
  fold (sort_by_length files).
  by rewrite filter_insert_by_length, !(filter_cons _ x), IH.
Qed.

Global Instance no_longer_trans : Transitive no_longer.
Proof. unfold no_longer. intros ???. lia. Qed.


Lemma allocate_lookup truncateFn cap files result remaining name e :
  allocate truncateFn cap files result remaining !! name = Some e →
  result !! name = Some e
  ∨ ∃ content budget, (name, content) ∈ files
      ∧ 0 < budget ≤ Z.max cap 500
      ∧ e = excerpt_of truncateFn content budget.
Proof.
  revert result remaining.
  induction files as [|[fileName content] files IH]; intros result remaining;
    cbn [allocate]; [by left|].
  destruct (Z.leb_spec remaining 0); [by left|].
  intros [Hin|(c & b & Hin & Hb & ->)]%IH.
  - destruct (decide (fileName = name)) as [->|Hne].
    + rewrite lookup_insert_eq in Hin. injection Hin as <-. right.
      exists content, (Z.min remaining (Z.max cap 500)).
      split_and!; [by left|lia|lia|done].
    + rewrite lookup_insert_ne in Hin by done. by left.
  - right. exists c, b. split_and!; [by right|lia|lia|done].
Qed.

Lemma plain_excerpts_from_input files B name e :
  truncateFilesByBudget files B None !! name = Some e →
  ∃ content, (name, content) ∈ files ∧ e `prefix_of` content
             ∧ js_length e ≤ Z.max (B / js_length files) 500.
Proof.
  intros Hlook. destruct files as [|file files]; [done|].
  rewrite truncateFilesByBudget_nonempty in Hlook by done.
  apply allocate_lookup in Hlook as [Hin|(content & budget & Hin & Hb & ->)];
    [done|].
  exists content. split_and!.
  - by rewrite <- (sort_by_length_perm (file :: files)).
  - cbn [excerpt_of]. rewrite slice_prefix by lia. apply prefix_take.
  - cbn [excerpt_of]. rewrite js_length_slice_prefix by lia. lia.
Qed.








(** X1 (order of processing): the allocator goes through the documents in
    ascending order of length; the sort loses and repeats no document, and
    documents of equal length keep the order of [Object.entries]. *)
Theorem processing_order (files : list (list N * list N)) :
  Sorted no_longer (sort_by_length files)
  ∧ sort_by_length files ≡ₚ files
  ∧ ∀ L, filter (of_length L) (sort_by_length files) = filter (of_length L) files.
Proof.
  split_and!; [apply sort_by_length_sorted | apply sort_by_length_perm|].
  intros L. apply sort_by_length_stable.
Qed.

(** X2 (plain excerpts): with the default plain slice every excerpt in the
    result belongs to a document of the input, is a prefix of that document
    and is at most [max (floor (B / n)) 500] characters long. *)
Theorem plain_excerpts (files : list (list N * list N)) (B : Z)
    (name e : list N) :
  truncateFilesByBudget files B None !! name = Some e →
  ∃ content, (name, content) ∈ files ∧ e `prefix_of` content
             ∧ js_length e ≤ Z.max (B / js_length files) 500.
Proof. apply plain_excerpts_from_input. Qed.

Lemma plain_excerpts_witness :
  ∃ content, (lit "setup.py", content) ∈ three_manifests
             ∧ replicate 500 120%N `prefix_of` content
             ∧ js_length (replicate 500 120%N)
                 ≤ Z.max (1000 / js_length three_manifests) 500.
Proof. apply (plain_excerpts three_manifests 1000). vm_compute. reflexivity. Defined.







(** ** The fragments of the prose extractor *)

Lemma picked_nil ms : picked [] ms.
Proof. exists []. split; [apply sublist_nil_l | constructor]. Qed.

Lemma picked_skip fs mt ms : picked fs ms → picked fs (mt :: ms).
Proof. intros (sub & Hsub & Hall). exists sub. split; [by apply sublist_cons|done]. Qed.

Lemma picked_keep f fs mt ms :
  f `prefix_of` mt → 100 < js_length f → picked fs ms → picked (f :: fs) (mt :: ms).
Proof.
  intros Hf Hlen (sub & Hsub & Hall). exists (mt :: sub).
  split; [by apply sublist_skip | by constructor].
Qed.

Lemma keep_matches_picked intro found extracted remaining :
  ∃ fs, (keep_matches intro found (extracted, remaining)).1 = extracted ++ fs
        ∧ picked fs found.
Proof.
  revert extracted remaining.
  induction found as [|mt found IH]; intros extracted remaining.
  - exists []. split; [by rewrite app_nil_r | apply picked_nil].
  - cbn [keep_matches].
    destruct (Z.leb_spec remaining 0).
    { exists []. split; [by rewrite app_nil_r | apply picked_nil]. }
    destruct (includes intro mt).
    { destruct (IH extracted remaining) as (fs & Heq & Hp).
      exists fs. split; [done | by apply picked_skip]. }
    destruct (Z.gtb_spec (js_length (slice mt 0 remaining)) 100).
    + destruct (IH (extracted ++ [slice mt 0 remaining])
                  (remaining - js_length (slice mt 0 remaining)))
        as (fs & Heq & Hp).
      exists (slice mt 0 remaining :: fs). split.
      * rewrite Heq. by rewrite <- app_assoc.
      * apply picked_keep; [|done..]. rewrite slice_prefix by lia.
        apply prefix_take.
    + destruct (IH extracted remaining) as (fs & Heq & Hp).
      exists fs. split; [done | by apply picked_skip].
Qed.

Lemma keep_sections_picked content intro sections st :
  ∃ fss, (keep_sections content intro sections st).1 = st.1 ++ concat fss
         ∧ Forall2 (λ fs p, picked fs (match_all p content)) fss sections.
Proof.
  revert st. induction sections as [|p sections IH]; intros st.
  - exists []. split; [by rewrite app_nil_r | constructor].
  - cbn [keep_sections]. destruct (st.2 <=? 0).
    + exists (replicate (length (p :: sections)) []). split.
      * replace (concat (replicate (length (p :: sections)) []))
          with (@nil (list N)); [by rewrite app_nil_r|].
        generalize (length (p :: sections)). intros n.
        induction n as [|n IHn]; [done|]. cbn. done.
      * generalize (p :: sections). intros l.
        induction l; constructor; [apply picked_nil | done].
    + destruct st as [extracted remaining].
      destruct (keep_matches_picked intro (match_all p content) extracted remaining)
        as (fs & Heq & Hp).
      destruct (IH (keep_matches intro (match_all p content) (extracted, remaining)))
        as (fss & Heq' & Hall).
      exists (fs :: fss). split; [|by constructor].
      rewrite Heq', Heq. cbn [fst concat]. by rewrite <- app_assoc.
Qed.

Lemma occurs_in_cons x c s : occurs_in x s → occurs_in x (c :: s).
Proof. intros (pre & post & ->). by exists (c :: pre), post. Qed.

Lemma occurs_in_prefix f x s : f `prefix_of` x → occurs_in x s → occurs_in f s.
Proof.
  intros [k ->] (pre & post & ->). exists pre, (k ++ post).
  by rewrite <- !app_assoc.
Qed.

Lemma scan_occurs icase r skip s mt :
  mt ∈ scan icase r skip s → occurs_in mt s.
Proof.
  revert skip. induction s as [|c s IH]; intros skip.
  - destruct skip; cbn [scan]; [|by intros ?%elem_of_nil].
    unfold match_here. destruct (m icase r [] Some); cbn;
      [|by intros ?%elem_of_nil].
    intros ->%list_elem_of_singleton. by exists [], [].
  - destruct skip as [|n]; cbn [scan].
    + unfold match_here. destruct (m icase r (c :: s) Some) as [rest|]; cbn.
      * intros [->|Hin]%elem_of_cons.
        -- exists [], (drop (length (c :: s) - length rest) (c :: s)).
           cbn [app]. by rewrite take_drop.
        -- apply occurs_in_cons. by eapply IH.
      * intros Hin. apply occurs_in_cons. by eapply IH.
    + intros Hin. apply occurs_in_cons. by eapply IH.
Qed.

Lemma picked_occurs fs p content :
  picked fs (match_all p content) → Forall (λ f, occurs_in f content) fs.
Proof.
  intros (sub & Hsub & Hall).
  assert (Forall (λ mt, occurs_in mt content) sub) as Hocc.
  { apply Forall_forall. intros mt Hin. eapply scan_occurs.
    by eapply elem_of_sublist. }
  clear Hsub. induction Hall as [|f mt fs sub [Hpre _] _ IH]; [constructor|].
  apply Forall_cons in Hocc as [Hmt Hocc]. constructor; [|by apply IH].
  by eapply occurs_in_prefix.
Qed.

Lemma smartTruncateReadme_long content maxLen :
  content ≠ [] → maxLen < js_length content →
  smartTruncateReadme content maxLen
  = join README_SEP
      (keep_sections content (slice content 0 500) prioritySections
         ([slice content 0 500], maxLen - js_length (slice content 0 500))).1.
Proof.
  intros Hne Hlong. unfold smartTruncateReadme.
  destruct content; [done|]. cbn [falsy orb].
  by destruct (Z.leb_spec (js_length (n :: content)) maxLen); [lia|].
Qed.

Lemma join_cons_prefix sep p ps : p `prefix_of` join sep (p :: ps).
Proof.
  destruct ps as [|q ps]; [done|]. rewrite join_cons_cons. by eexists.
Qed.

Lemma smartTruncateReadme_fragments content maxLen :
  content ≠ [] → maxLen < js_length content →
  ∃ fss,
    Forall2 (λ fs p, picked fs (match_all p content)) fss prioritySections
    ∧ smartTruncateReadme content maxLen
      = join README_SEP (slice content 0 500 :: concat fss).
Proof.
  intros Hne Hlong. rewrite smartTruncateReadme_long by done.
  destruct (keep_sections_picked content (slice content 0 500) prioritySections
              ([slice content 0 500], maxLen - js_length (slice content 0 500)))
    as (fss & -> & Hall).
  by exists fss.
Qed.

(** X6 (fragments by tier): when a readme is cut, the output is its first 500
    characters followed by the kept fragments, joined by the separator; the
    fragments come tier by tier in the order of [prioritySections], inside a
    tier in the order of the matches of its pattern, each one is the
    beginning of a match and longer than 100 characters, and each one is a
    piece of the readme. *)
Theorem fragments_by_tier (content : list N) (maxLen : Z) :
  content ≠ [] → maxLen < js_length content →
  ∃ fss,
    Forall2 (λ fs p, picked fs (match_all p content)) fss prioritySections
    ∧ Forall (λ f, occurs_in f content) (concat fss)
    ∧ smartTruncateReadme content maxLen
      = join README_SEP (slice content 0 500 :: concat fss).
Proof.
  intros Hne Hlong.
  destruct (smartTruncateReadme_fragments content maxLen Hne Hlong)
    as (fss & Hall & Heq).
  exists fss. split_and!; [done| |done].
  clear -Hall. induction Hall as [|fs p fss ps Hp _ IH]; [constructor|].
  cbn [concat]. apply Forall_app. split; [|done]. by eapply picked_occurs.
Qed.

Lemma fragments_by_tier_witness :
  ∃ fss,
    Forall2 (λ fs p, picked fs (match_all p tiered_readme)) fss prioritySections
    ∧ Forall (λ f, occurs_in f tiered_readme) (concat fss)
    ∧ smartTruncateReadme tiered_readme 900
      = join README_SEP (slice tiered_readme 0 500 :: concat fss).
Proof.
  apply fragments_by_tier.
  - discriminate.
  - vm_compute. reflexivity.
Defined.

(** X7 (introduction first): whatever the budget, the output of the prose
    extractor begins with the first 500 characters of the readme (all of it
    when it is shorter). *)
Theorem intro_comes_first (content : list N) (maxLen : Z) :
  slice content 0 500 `prefix_of` smartTruncateReadme content maxLen.
Proof.
  destruct content as [|c content]; [done|].
  destruct (Z.le_gt_cases (js_length (c :: content)) maxLen) as [Hfit|Hlong].
  - destruct (identity_fits (c :: content) maxLen Hfit) as [-> _].
    rewrite slice_prefix by lia. apply prefix_take.
  - destruct (smartTruncateReadme_fragments (c :: content) maxLen)
      as (fss & _ & ->); [done|lia|].
    apply join_cons_prefix.
Qed.

(** X8 (short readme): a readme of at most 500 characters is returned whole
    by the prose extractor, also when [maxLen] is smaller than its length,
    zero or negative: the introduction is not cut to the budget. *)
Theorem short_readme_whole (content : list N) (maxLen : Z) :
  js_length content ≤ 500 → smartTruncateReadme content maxLen = content.
Proof.
  intros Hshort. destruct content as [|c content]; [done|].
  destruct (Z.le_gt_cases (js_length (c :: content)) maxLen) as [Hfit|Hlong].
  - by destruct (identity_fits (c :: content) maxLen Hfit) as [-> _].
  - rewrite smartTruncateReadme_long by (done || lia).
    rewrite slice_whole by done.
    rewrite keep_sections_exhausted by (cbn [snd]; lia). done.
Qed.

Lemma short_readme_whole_witness :
  smartTruncateReadme (lit "# demo") (-5) = lit "# demo".
Proof. apply short_readme_whole. vm_compute. discriminate. Defined.

(** ** Source-code extraction: small budgets, the import block, the tail *)

Lemma entry_block_small_bound maxLen lines importEnd entryStart importLines :
  0 ≤ maxLen →
  js_length (join [NL] (entry_block maxLen lines importEnd entryStart
                          (import_block maxLen importLines)))
    ≤ maxLen + 22.
Proof.
  intros Hmax. assert (maxLen / 2 ≤ maxLen) by (apply Z.div_le_upper_bound; lia).
  unfold entry_block.
  set (window := entry_section lines (context_start entryStart importEnd)).
  pose proof (js_length_nonneg window).
  destruct (import_block_cases maxLen importLines) as [(section & -> & Hhalf)| ->].
  - pose proof (js_length_nonneg section).
    destruct (Z.leb_spec (js_length section + js_length window) maxLen).
    + destruct (_ >? _); join_length; lia.
    + destruct (Z.gtb_spec (maxLen - js_length section - 50) 0).
      * pose proof (js_length_slice_from_suffix window
                      (maxLen - js_length section - 50)).
        join_length. lia.
      * join_length. lia.
  - destruct (Z.leb_spec (0 + js_length window) maxLen).
    + destruct (_ >? _); join_length; lia.
    + destruct (Z.gtb_spec (maxLen - 0 - 50) 0).
      * pose proof (js_length_slice_from_suffix window (maxLen - 0 - 50)).
        join_length. lia.
      * join_length. lia.
Qed.

Lemma head_tail_block_small_bound maxLen lines importEnd importLines :
  2 ≤ maxLen →
  js_length (join [NL] (head_tail_block maxLen lines importEnd
                          (import_block maxLen importLines)))
    ≤ maxLen + 23.
Proof.
  intros Hmax. assert (2 * (maxLen / 2) ≤ maxLen) by (apply Z.mul_div_le; lia).
  assert (maxLen < 2 * (maxLen / 2) + 2).
  { pose proof (Z.mod_pos_bound maxLen 2). pose proof (Z.div_mod maxLen 2). lia. }
  unfold head_tail_block.
  set (middle := join [NL] (slice_from lines (importEnd + 1))).
  assert (∀ remaining, 2 ≤ remaining →
    js_length (slice middle 0 (Z.quot remaining 2))
    + js_length (slice_from middle (Z.quot (- remaining) 2)) ≤ remaining)
    as Hparts.
  { intros remaining Hr.
    pose proof (Z.mul_quot_le remaining 2 ltac:(lia) ltac:(lia)).
    assert (0 < Z.quot remaining 2) by (apply Z.quot_str_pos; lia).
    rewrite Z.quot_opp_l by lia.
    pose proof (js_length_slice_from_suffix middle (Z.quot remaining 2)).
    rewrite js_length_slice_prefix by lia. lia. }
  destruct (import_block_cases maxLen importLines) as [(section & -> & Hhalf)| ->].
  - pose proof (js_length_nonneg section).
    destruct (Z.leb_spec (js_length middle) (maxLen - js_length section)).
    + join_length. lia.
    + pose proof (Hparts (maxLen - js_length section)). join_length. lia.
  - destruct (Z.leb_spec (js_length middle) (maxLen - 0)).
    + join_length. lia.
    + pose proof (Hparts (maxLen - 0)). join_length. lia.
Qed.

(** X9 (bound below the floor): the source-code extractor stays within
    [maxLen + 23] for every budget from 2 on, so also for the budgets under
    500 that the allocator hands down when little is left. *)
Theorem python_bound_below_floor (content : list N) (maxLen : Z) :
  2 ≤ maxLen → js_length (smartTruncatePython content maxLen) ≤ maxLen + 23.
Proof.
  intros Hmax. destruct content as [|c content].
  { change (js_length (smartTruncatePython [] maxLen)) with 0. lia. }
  destruct (Z.le_gt_cases (js_length (c :: content)) maxLen) as [Hfit|Hlong].
  - destruct (identity_fits (c :: content) maxLen Hfit) as [_ ->]. lia.
  - rewrite smartTruncatePython_long by (done || lia). cbv zeta.
    destruct (negb _).
    + pose proof (entry_block_small_bound maxLen (split_lines (c :: content))
                    (scan_imports (split_lines (c :: content)) 0 [] 0).2
                    (entry_start (split_lines (c :: content)))
                    (scan_imports (split_lines (c :: content)) 0 [] 0).1).
      lia.
    + by apply head_tail_block_small_bound.
Qed.

Lemma python_bound_below_floor_witness :
  js_length (smartTruncatePython two_assignments 2) ≤ 2 + 23.
Proof. apply python_bound_below_floor. lia. Defined.

Lemma sum_lengths_nonneg parts : 0 ≤ sum_lengths parts.
Proof.
  induction parts as [|p parts IH]; [done|]. rewrite sum_lengths_cons.
  pose proof (js_length_nonneg p). lia.
Qed.

Lemma js_length_join_drop n lines :
  js_length (join [NL] (drop n lines)) ≤ js_length (join [NL] lines).
Proof.
  revert n. induction lines as [|line lines IH]; intros n;
    [by destruct n|].
  destruct n as [|n]; [done|]. cbn [drop]. etrans; [apply IH|].
  rewrite !js_length_join, sum_lengths_cons. change (js_length [NL]) with 1.
  rewrite js_length_cons.
  pose proof (js_length_nonneg line). pose proof (js_length_nonneg lines). lia.
Qed.

(** X10 (budget of 0 or 1): for a file without entry point that is cut with
    [maxLen] 0 or 1, both halves of the head and tail split have length 0
    after rounding, and [slice(-0)] is the whole text: the output is a
    newline, the marker, a newline and the whole body after the import
    lines, however long it is. *)
Theorem python_degenerate_budget (content : list N) (maxLen : Z) :
  content ≠ [] →
  0 ≤ maxLen ≤ 1 →
  Forall (λ line, is_entry line = false) (split_lines content) →
  let lines := split_lines content in
  let importEnd := (scan_imports lines 0 [] 0).2 in
  let body := join [NL] (drop (Z.to_nat (importEnd + 1)) lines) in
  maxLen < js_length body →
  smartTruncatePython content maxLen = [NL] ++ MARKER ++ [NL] ++ body.
Proof.
  intros Hne Hmax Hno lines importEnd body Hbody.
  assert (maxLen < js_length content) as Hlong.
  { pose proof (js_length_join_drop (Z.to_nat (importEnd + 1)) lines) as Hle.
    unfold lines in Hle at 2. rewrite join_split_lines in Hle.
    fold body in Hle. lia. }
  rewrite smartTruncatePython_long by done. cbv zeta. fold lines.
  rewrite entry_start_none by done. rewrite Z.eqb_refl. cbn [negb].
  assert (0 ≤ importEnd) by by apply scan_imports_end_nonneg.
  unfold head_tail_block, import_block. fold importEnd.
  assert (maxLen / 2 = 0) as -> by (apply Z.div_small; lia).
  pose proof (js_length_nonneg (join [NL] (scan_imports lines 0 [] 0).1)).
  destruct (Z.ltb_spec (js_length (join [NL] (scan_imports lines 0 [] 0).1)) 0);
    [lia|].
  rewrite slice_from_drop by lia. fold body. rewrite Z.sub_0_r.
  destruct (Z.leb_spec (js_length body) maxLen); [lia|].
  assert (Z.quot maxLen 2 = 0) as -> by (apply Z.quot_small; lia).
  assert (Z.quot (- maxLen) 2 = 0) as ->.
  { rewrite Z.quot_opp_l by lia. rewrite Z.quot_small by lia. done. }
  rewrite slice_prefix by lia. rewrite slice_from_drop by lia.
  cbn [Z.to_nat take drop app]. rewrite !join_cons_cons. cbn [join app]. done.
Qed.

Lemma python_degenerate_budget_witness :
  smartTruncatePython two_assignments 1
  = [NL] ++ MARKER ++ [NL] ++ lit "y = 2".
Proof.
  apply (python_degenerate_budget two_assignments 1).
  - discriminate.
  - lia.
  - by_decide.
  - vm_compute. reflexivity.
Defined.

Lemma filter_none {A} (p : A → bool) l :
  Forall (λ x, p x = false) l ↔ List.filter p l = [].
Proof.
  induction l as [|x l IH]; cbn; [done|]. rewrite Forall_cons, IH.
  destruct (p x).
  - split; [by intros [? _] | done].
  - split; [by intros [_ ?] | done].
Qed.

Lemma scan_imports_state pre lines importLines importEnd :
  import_state pre importLines importEnd →
  ∃ seen rest,
    lines = seen ++ rest
    ∧ import_state (pre ++ seen)
        (scan_imports lines (js_length pre) importLines importEnd).1
        (scan_imports lines (js_length pre) importLines importEnd).2
    ∧ ((scan_imports lines (js_length pre) importLines importEnd).1 = []
       → rest = []).
Proof.
  revert pre importLines importEnd.
  induction lines as [|line lines IH]; intros pre importLines importEnd Hst.
  - exists [], []. rewrite (app_nil_r pre). cbn [scan_imports fst snd].
    split; [done|]. split; [exact Hst | done].
  - cbn [scan_imports]. destruct Hst as (Hacc & Hpos & Hnil & Hlast).
    assert (js_length (pre ++ [line]) = js_length pre + 1) as Hlen
      by (rewrite js_length_app; done).
    destruct (is_import line) eqn:Himp.
    + destruct (IH (pre ++ [line]) (importLines ++ [line]) (js_length pre))
        as (seen & rest & -> & Hst' & Hrest).
      { split_and!.
        - rewrite List.filter_app. cbn. by rewrite Himp, Hacc.
        - apply js_length_nonneg.
        - by intros [_ ?]%app_eq_nil.
        - intros _. exists line. unfold js_length. rewrite Nat2Z.id.
          split_and!; [by apply list_lookup_middle|done|apply last_snoc|].
          rewrite drop_ge by (rewrite length_app; cbn; lia). constructor. }
      rewrite Hlen in *. exists (line :: seen), rest.
      by rewrite (cons_middle line pre), app_assoc.
    + assert (List.filter is_import (pre ++ [line]) = importLines) as Hacc'.
      { rewrite List.filter_app. cbn. by rewrite Himp, app_nil_r. }
      destruct importLines as [|first importLines].
      * cbn [js_length length Z.of_nat Z.gtb Z.compare andb].
        destruct (IH (pre ++ [line]) [] importEnd) as (seen & rest & -> & Hst' & Hrest).
        { split_and!; [done..|]. by intros ?. }
        rewrite Hlen in *. exists (line :: seen), rest.
        by rewrite (cons_middle line pre), app_assoc.
      * assert ((js_length (first :: importLines) >? 0) = true) as ->.
        { rewrite js_length_cons. pose proof (js_length_nonneg importLines). lia. }
        destruct Hlast as (lastl & Hlook & Hlimp & Hlastl & Hafter); [done|].
        apply lookup_lt_Some in Hlook as Hlt.
        cbn [andb]. destruct (trim_is_empty line).
        -- destruct (IH (pre ++ [line]) (first :: importLines) importEnd)
             as (seen & rest & -> & Hst' & Hrest).
           { split_and!; [done..|]. intros _. exists lastl.
             split_and!; [by rewrite lookup_app_l|done..|].
             rewrite drop_app_le by lia. apply Forall_app. by split; [|constructor]. }
           rewrite Hlen in *. exists (line :: seen), rest.
           by rewrite (cons_middle line pre), app_assoc.
        -- exists [], (line :: lines). rewrite app_nil_r. cbn [fst snd].
           split_and!; [done| |done]. split_and!; [done..|]. intros _. eauto.
Qed.

(** X11 (end of the import block): after the loop over the lines,
    [importLines] are the import lines among the lines up to index
    [importEnd]; [importEnd] is 0 when there is none, and otherwise the index
    of an import line, the last one collected. *)
Theorem import_end_index (lines : list (list N)) :
  let importLines := (scan_imports lines 0 [] 0).1 in
  let importEnd := (scan_imports lines 0 [] 0).2 in
  importLines = List.filter is_import (take (Z.to_nat importEnd + 1) lines)
  ∧ (importLines = [] → importEnd = 0)
  ∧ (importLines ≠ [] →
     ∃ line, lines !! Z.to_nat importEnd = Some line ∧ is_import line = true
             ∧ last importLines = Some line).
Proof.
  intros importLines importEnd.
  destruct (scan_imports_state [] lines [] 0)
    as (seen & rest & Hlines & (Hacc & Hpos & Hnil & Hlast) & Hrest).
  { split_and!; [done..|]. by intros ?. }
  change (js_length []) with 0 in *. cbn [app] in *.
  fold importLines importEnd in Hacc, Hpos, Hnil, Hlast, Hrest.
  split_and!; [|done|].
  - destruct (decide (importLines = [])) as [Hempty|Hne].
    + rewrite Hempty. symmetry. apply filter_none, Forall_take.
      rewrite Hlines, (Hrest Hempty), app_nil_r. apply filter_none.
      by rewrite <- Hacc.
    + destruct (Hlast Hne) as (line & Hlook & _ & _ & Hafter).
      apply lookup_lt_Some in Hlook. rewrite Hlines.
      rewrite take_app_le by lia.
      rewrite Hacc. rewrite <- (take_drop (Z.to_nat importEnd + 1) seen) at 1.
      rewrite List.filter_app. apply filter_none in Hafter. rewrite Hafter.
      by rewrite app_nil_r.
  - intros Hne. destruct (Hlast Hne) as (line & Hlook & Himp & Hl & _).
    exists line. split_and!; [|done..]. rewrite Hlines.
    apply lookup_lt_Some in Hlook as Hlt. by rewrite lookup_app_l.
Qed.

Lemma join_tail_suffix line lines :
  join [NL] lines `suffix_of` join [NL] (line :: lines).
Proof.
  destruct lines as [|l lines]; [apply suffix_nil|].
  rewrite join_cons_cons. exists (line ++ [NL]). by rewrite <- app_assoc.
Qed.

Lemma join_drop_suffix n lines :
  join [NL] (drop n lines) `suffix_of` join [NL] lines.
Proof.
  revert n. induction lines as [|line lines IH]; intros n; [by destruct n|].
  destruct n as [|n]; [done|]. cbn [drop].
  etrans; [apply IH | apply join_tail_suffix].
Qed.





(** ** Cleaning the generated manifest *)

Lemma drop_while_all {A} (p : A → bool) l k :
  Forall (λ x, p x = true) l → drop_while p (l ++ k) = drop_while p k.
Proof.
  induction 1 as [|x l Hx _ IH]; [done|]. cbn. by rewrite Hx.
Qed.

Lemma drop_while_stop {A} (p : A → bool) x l :
  p x = false → drop_while p (x :: l) = x :: l.
Proof. intros Hx. cbn. by rewrite Hx. Qed.

Lemma trim_framed lead a core z trail :
  spaces lead → spaces trail → is_space a = false → is_space z = false →
  trim (lead ++ (a :: core ++ [z]) ++ trail) = a :: core ++ [z].
Proof.
  intros Hlead Htrail Ha Hz. unfold trim.
  rewrite drop_while_all by done.
  change ((a :: core ++ [z]) ++ trail) with (a :: (core ++ [z]) ++ trail).
  rewrite drop_while_stop by done.
  replace (a :: (core ++ [z]) ++ trail) with ((a :: core) ++ [z] ++ trail)
    by (cbn [app]; by rewrite <- app_assoc).
  rewrite !reverse_app, <- app_assoc.
  rewrite drop_while_all by (by apply Forall_reverse).
  change (reverse [z]) with [z]. cbn [app].
  rewrite drop_while_stop by done.
  by rewrite reverse_cons, reverse_involutive.
Qed.

Lemma char_eq_backtick icase y : char_eq icase 96 y = true ↔ y = 96%N.
Proof.
  unfold char_eq. destruct icase; [|by rewrite N.eqb_eq; split].
  change (ascii_upper 96) with 96%N. rewrite N.eqb_eq. unfold ascii_upper.
  destruct (N.leb_spec 97 y), (N.leb_spec y 122); cbn [andb]; lia.
Qed.

Lemma matches_fence icase x rest :
  matches icase (word "```") x rest ↔ x = FENCE.
Proof.
  change (word "```") with (Seq (Lit 96) (Seq (Lit 96) (Lit 96))).
  rewrite matches_Seq_iff. split.
  - intros (x1 & x2 & -> & (y1 & -> & ->%char_eq_backtick)%matches_Lit_iff & H).
    apply matches_Seq_iff in H
      as (? & ? & -> & (y2 & -> & ->%char_eq_backtick)%matches_Lit_iff
          & (y3 & -> & ->%char_eq_backtick)%matches_Lit_iff).
    done.
  - intros ->. exists [96%N], [96%N; 96%N]. split_and!; [done| |].
    + apply matches_Lit_iff. exists 96%N. by rewrite char_eq_backtick.
    + apply matches_Seq_iff. exists [96%N], [96%N].
      split_and!; [done| |]; apply matches_Lit_iff;
        exists 96%N; by rewrite char_eq_backtick.
Qed.

Lemma rep_ok_opt p x :
  rep_ok p 0 (Some 1%nat) x ↔ x = [] ∨ ∃ c, x = [c] ∧ p c = true.
Proof.
  unfold rep_ok. split.
  - intros (Hall & _ & Hhi). specialize (Hhi _ eq_refl).
    destruct x as [|c [|c' x]]; [by left| |cbn in Hhi; lia].
    right. apply Forall_cons in Hall as [? _]. eauto.
  - intros [->|(c & -> & Hc)].
    + split_and!; [done|cbn; lia|]. intros n [= <-]. cbn. lia.
    + split_and!; [by repeat constructor|cbn; lia|]. intros n [= <-]. cbn. lia.
Qed.

Lemma matches_closingFence x rest :
  matches true (pat closingFence) x rest
  ↔ rest = [] ∧ (x = FENCE ∨ x = NL :: FENCE).
Proof.
  change (pat closingFence)
    with (Seq (opt (is_char NL)) (Seq (word "```") Eoi)).
  rewrite matches_Seq_iff. split.
  - intros (x1 & x2 & -> & H1%matches_Rep_iff%rep_ok_opt & H2).
    apply matches_Seq_iff in H2 as (f & e & -> & ->%matches_fence & He).
    inversion He; subst. rewrite app_nil_r. split; [done|].
    destruct H1 as [->|(c & -> & ->%N.eqb_eq)]; [by left | by right].
  - intros [-> [->| ->]].
    + exists [], FENCE. split_and!; [done|by apply matches_Rep_iff, rep_ok_opt; left|].
      apply matches_Seq_iff. exists FENCE, [].
      split_and!; [done|by apply matches_fence | constructor].
    + exists [NL], FENCE. split_and!; [done| |].
      * apply matches_Rep_iff, rep_ok_opt. right. by exists NL.
      * apply matches_Seq_iff. exists FENCE, [].
        split_and!; [done|by apply matches_fence | constructor].
Qed.

Lemma closingFence_at s rest :
  m true (pat closingFence) s Some = Some rest →
  rest = [] ∧ (s = FENCE ∨ s = NL :: FENCE).
Proof.
  intros Hm. assert (is_Some (m true (pat closingFence) s Some)) as Hs by eauto.
  apply m_spec in Hs as (x & rest' & -> & [-> Hx]%matches_closingFence & _).
  rewrite app_nil_r in *. split; [|done].
  destruct Hx as [->| ->]; vm_compute in Hm; congruence.
Qed.

Lemma remove_closingFence body :
  remove_first true (pat closingFence) (body ++ NL :: FENCE) = body.
Proof.
  induction body as [|c body IH]; [done|]. cbn [app remove_first].
  destruct (m true (pat closingFence) (c :: body ++ NL :: FENCE) Some)
    as [rest|] eqn:Hm; [|by rewrite IH].
  apply closingFence_at in Hm as [_ [Hs|Hs]];
    apply (f_equal length) in Hs; cbn in Hs; rewrite length_app in Hs;
    cbn in Hs; lia.
Qed.

Lemma remove_first_none icase r s :
  (∀ s', s' `suffix_of` s → m icase r s' Some = None) →
  remove_first icase r s = s.
Proof.
  induction s as [|c s IH]; intros Hnone; cbn [remove_first].
  - by rewrite Hnone.
  - rewrite Hnone by done. f_equal. apply IH. intros s' Hs'.
    apply Hnone. by apply suffix_cons_r.
Qed.

Lemma openingFence_at s rest :
  m true (pat openingFence) s Some = Some rest → FENCE `prefix_of` s.
Proof.
  intros Hm. assert (is_Some (m true (pat openingFence) s Some)) as Hs by eauto.
  apply m_spec in Hs as (x & rest' & -> & Hx & _).
  change (pat openingFence)
    with (Seq (Seq (Lit 96) (Seq (Lit 96) (Seq (Lit 96)
            (Seq (Lit 116) (Seq (Lit 111) (Lit 109))))))
            (Seq (opt (char_eq true 108)) (opt (is_char NL)))) in Hx.
  apply matches_Seq_iff in Hx as (x1 & x2 & -> & H1 & _).
  apply matches_Seq_iff in H1
    as (? & ? & -> & (y1 & -> & ->%char_eq_backtick)%matches_Lit_iff & H1).
  apply matches_Seq_iff in H1
    as (? & ? & -> & (y2 & -> & ->%char_eq_backtick)%matches_Lit_iff & H1).
  apply matches_Seq_iff in H1
    as (? & ? & -> & (y3 & -> & ->%char_eq_backtick)%matches_Lit_iff & H1).
  eexists. cbn. reflexivity.
Qed.

Lemma remove_openingFence rest :
  remove_anchored true (pat openingFence) (lit "```toml" ++ NL :: rest) = rest.
Proof. unfold remove_anchored. destruct rest; vm_compute; reflexivity. Qed.

(** X13 (a fenced manifest is unwrapped): a completion that is a [toml]
    fence around a body, with white space before and after, is cleaned to the
    body, whatever the body holds. *)
Theorem fenced_response_unwrapped (lead body trail : list N) :
  spaces lead → spaces trail →
  clean_response (lead ++ lit "```toml" ++ [NL] ++ body ++ [NL] ++ FENCE ++ trail)
  = body.
Proof.
  intros Hlead Htrail. unfold clean_response. cbv zeta.
  replace (lead ++ lit "```toml" ++ [NL] ++ body ++ [NL] ++ FENCE ++ trail)
    with (lead ++ (96%N :: (lit "``toml" ++ [NL] ++ body ++ [NL] ++ lit "``")
                     ++ [96%N]) ++ trail).
  2:{ change (lit "``toml") with [96;96;116;111;109;108]%N.
      change (lit "```toml") with [96;96;96;116;111;109;108]%N.
      change FENCE with [96;96;96]%N. change (lit "``") with [96;96]%N.
      cbn [app]. rewrite <- ?app_assoc. cbn [app]. reflexivity. }
  rewrite trim_framed by done.
  replace (96%N :: (lit "``toml" ++ [NL] ++ body ++ [NL] ++ lit "``") ++ [96%N])
    with (lit "```toml" ++ NL :: (body ++ NL :: FENCE)).
  2:{ change (lit "``toml") with [96;96;116;111;109;108]%N.
      change (lit "```toml") with [96;96;96;116;111;109;108]%N.
      change FENCE with [96;96;96]%N. change (lit "``") with [96;96]%N.
      cbn [app]. rewrite <- ?app_assoc. cbn [app]. reflexivity. }
  cbn [ignoreCase openingFence closingFence].
  rewrite remove_openingFence.
  apply remove_closingFence.
Qed.

Lemma fenced_response_unwrapped_witness :
  clean_response ([NL] ++ lit "```toml" ++ [NL] ++ lit "[project]" ++ [NL]
                    ++ FENCE ++ lit " ")
  = lit "[project]".
Proof. apply (fenced_response_unwrapped [NL] (lit "[project]") (lit " ")); by_decide. Defined.

(** X14 (an unfenced manifest is only trimmed): a completion that, once
    trimmed, neither begins nor ends with three backquotes is returned
    trimmed and otherwise unchanged. *)
Theorem unfenced_response_trimmed (raw : list N) :
  ¬ FENCE `prefix_of` trim raw →
  ¬ FENCE `suffix_of` trim raw →
  clean_response raw = trim raw.
Proof.
  intros Hstart Hend. unfold clean_response. cbv zeta.
  cbn [ignoreCase openingFence closingFence].
  assert (remove_anchored true (pat openingFence) (trim raw) = trim raw) as ->.
  { unfold remove_anchored.
    destruct (m true (pat openingFence) (trim raw) Some) eqn:Hm; [|done].
    by apply openingFence_at in Hm. }
  apply remove_first_none. intros s' Hs'.
  destruct (m true (pat closingFence) s' Some) as [rest|] eqn:Hm; [|done].
  apply closingFence_at in Hm as [_ Hm]. destruct Hend.
  etrans; [|done]. destruct Hm as [->| ->]; [done|]. by exists [NL].
Qed.

Lemma unfenced_response_trimmed_witness :
  clean_response (lit " [project] ") = trim (lit " [project] ").
Proof. apply unfenced_response_trimmed; by_decide. Defined.

(** X15 (a fence without language tag): the opening pattern asks for [tom]
    after the backquotes, so of a fence that opens with a bare line of three
    backquotes only the closing fence is removed; the opening one stays in
    the manifest. *)
Theorem bare_fence_kept (body : list N) :
  clean_response (FENCE ++ [NL] ++ body ++ [NL] ++ FENCE)
  = FENCE ++ [NL] ++ body.
Proof.
  unfold clean_response. cbv zeta.
  replace (FENCE ++ [NL] ++ body ++ [NL] ++ FENCE)
    with ([] ++ (96%N :: (lit "``" ++ [NL] ++ body ++ [NL] ++ lit "``")
                   ++ [96%N]) ++ []).
  2:{ change FENCE with [96;96;96]%N. change (lit "``") with [96;96]%N.
      cbn [app]. rewrite app_nil_r, <- ?app_assoc. cbn [app]. reflexivity. }
  rewrite trim_framed by (done || constructor).
  replace (96%N :: (lit "``" ++ [NL] ++ body ++ [NL] ++ lit "``") ++ [96%N])
    with ((FENCE ++ [NL] ++ body) ++ NL :: FENCE).
  2:{ change FENCE with [96;96;96]%N. change (lit "``") with [96;96]%N.
      cbn [app]. rewrite <- ?app_assoc. cbn [app]. reflexivity. }
  cbn [ignoreCase openingFence closingFence].
  assert (remove_anchored true (pat openingFence)
            ((FENCE ++ [NL] ++ body) ++ NL :: FENCE)
          = (FENCE ++ [NL] ++ body) ++ NL :: FENCE) as ->.
  { unfold remove_anchored. vm_compute. reflexivity. }
  apply remove_closingFence.
Qed.

(** ** Source-code extraction: the parts of the output *)

Lemma occurs_in_refl s : occurs_in s s.
Proof. exists [], []. by rewrite app_nil_r. Qed.

Lemma occurs_in_trans x y s : occurs_in x y → occurs_in y s → occurs_in x s.
Proof.
  intros (p1 & q1 & ->) (p2 & q2 & ->). exists (p2 ++ p1), (q1 ++ q2).
  by rewrite <- !app_assoc.
Qed.

Lemma occurs_in_suffix x s : x `suffix_of` s → occurs_in x s.
Proof. intros [k ->]. exists k, []. by rewrite app_nil_r. Qed.

Lemma occurs_in_slice (s : list N) a b : occurs_in (slice s a b) s.
Proof.
  unfold slice. cbv zeta.
  set (k := Z.to_nat (clamp_index (js_length s) a)).
  set (n := Z.to_nat _).
  exists (take k s), (drop n (drop k s)). by rewrite !take_drop.
Qed.

(** X18 (what the output is made of): when a file is cut, the output is the
    import lines, present only if together they are shorter than half the
    budget, followed by parts that are the marker or pieces of the text
    after line [importEnd], all joined by newlines.  Nothing of the lines up
    to [importEnd] reaches the output except through the import block: the
    first line of a file without import is always lost. *)
Theorem python_output_parts (content : list N) (maxLen : Z) :
  content ≠ [] → maxLen < js_length content →
  let lines := split_lines content in
  let importSection := join [NL] (scan_imports lines 0 [] 0).1 in
  let importEnd := (scan_imports lines 0 [] 0).2 in
  let body := join [NL] (drop (Z.to_nat (importEnd + 1)) lines) in
  ∃ parts,
    smartTruncatePython content maxLen
    = join [NL] ((if js_length importSection <? maxLen / 2
                  then [importSection] else []) ++ parts)
    ∧ Forall (λ p, p = MARKER ∨ occurs_in p body) parts.
Proof.
  intros Hne Hlong lines importSection importEnd body.
  rewrite smartTruncatePython_long by done. cbv zeta.
  fold lines. fold importEnd. unfold import_block. cbv zeta. fold importSection.
  assert (0 ≤ importEnd) as Hend by by apply scan_imports_end_nonneg.
  set (result := if js_length importSection <? maxLen / 2
                 then [importSection] else []).
  set (currentLen := if js_length importSection <? maxLen / 2
                     then js_length importSection else 0).
  replace (if js_length importSection <? maxLen / 2
           then ([importSection], js_length importSection) else ([], 0))
    with (result, currentLen)
    by (unfold result, currentLen; by destruct (_ <? _)).
  destruct (negb (entry_start lines =? -1)).
  - unfold entry_block, entry_section.
    set (contextStart := context_start (entry_start lines) importEnd).
    assert (importEnd + 1 ≤ contextStart) by (unfold contextStart, context_start; lia).
    rewrite slice_from_drop by lia.
    set (window := join [NL] (drop (Z.to_nat contextStart) lines)).
    assert (occurs_in window body) as Hwin.
    { apply occurs_in_suffix. unfold window, body.
      replace (Z.to_nat contextStart)
        with (Z.to_nat (importEnd + 1)
              + (Z.to_nat contextStart - Z.to_nat (importEnd + 1)))%nat by lia.
      rewrite <- drop_drop. apply join_drop_suffix. }
    destruct (_ <=? maxLen).
    + destruct (_ >? _).
      * exists [MARKER; window]. rewrite <- app_assoc. split; [done|].
        apply Forall_cons_2; [by left|]. apply Forall_cons_2; [by right|].
        constructor.
      * exists [window]. split; [done|].
        apply Forall_cons_2; [by right|]. constructor.
    + destruct (_ >? 0).
      * eexists [MARKER; _]. split; [done|].
        apply Forall_cons_2; [by left|]. apply Forall_cons_2; [|constructor].
        right. eapply occurs_in_trans; [apply occurs_in_slice | done].
      * exists []. by rewrite app_nil_r.
  - unfold head_tail_block. rewrite slice_from_drop by lia. fold body.
    destruct (_ <=? _).
    + exists [body]. split; [done|].
      apply Forall_cons_2; [|constructor]. right. apply occurs_in_refl.
    + eexists [_; MARKER; _]. split; [done|].
      apply Forall_cons_2; [right; apply occurs_in_slice|].
      apply Forall_cons_2; [by left|].
      apply Forall_cons_2; [right; apply occurs_in_slice|constructor].
Qed.

Lemma python_output_parts_witness :
  ∃ parts,
    smartTruncatePython two_assignments 5
    = join [NL] ((if js_length (@nil N) <? 5 / 2 then [[]] else []) ++ parts)
    ∧ Forall (λ p, p = MARKER ∨ occurs_in p (lit "y = 2")) parts.
Proof.
  apply (python_output_parts two_assignments 5).
  - discriminate.
  - vm_compute. reflexivity.
Defined.
